(** * Attack trees of docs/security/attack-trees-analysis.py

    A shallow embedding of the attack-tree data model ([AttackNode],
    [AttackTree]), of the path search [_find_path] / [_path_score], of the
    leaf enumeration, of [to_dict] and of the [MermaidExporter]. *)

From Stdlib Require Import PrimFloat.
From stdpp Require Import base gmap strings list pretty.

Set Warnings "-register-all".
Open Scope string_scope.

(* ------------------------------------------------------------------ *)
(** ** Enums *)

Inductive NodeType := OR | AND | LEAF.

Definition NodeType_eqb (a b : NodeType) : bool :=
  match a, b with
  | OR, OR | AND, AND | LEAF, LEAF => true
  | _, _ => false
  end.

(** [NodeType.value] *)
Definition NodeType_value (t : NodeType) : string :=
  match t with OR => "or" | AND => "and" | LEAF => "leaf" end.

Inductive Difficulty := D_TRIVIAL | D_LOW | D_MEDIUM | D_HIGH | D_EXPERT.

Definition Difficulty_value (d : Difficulty) : Z :=
  match d with
  | D_TRIVIAL => 1 | D_LOW => 2 | D_MEDIUM => 3 | D_HIGH => 4 | D_EXPERT => 5
  end.

Definition Difficulty_name (d : Difficulty) : string :=
  match d with
  | D_TRIVIAL => "TRIVIAL" | D_LOW => "LOW" | D_MEDIUM => "MEDIUM"
  | D_HIGH => "HIGH" | D_EXPERT => "EXPERT"
  end.

Inductive Cost := C_FREE | C_LOW | C_MEDIUM | C_HIGH | C_VERY_HIGH.

Definition Cost_value (c : Cost) : Z :=
  match c with
  | C_FREE => 0 | C_LOW => 1 | C_MEDIUM => 2 | C_HIGH => 3 | C_VERY_HIGH => 4
  end.

Definition Cost_name (c : Cost) : string :=
  match c with
  | C_FREE => "FREE" | C_LOW => "LOW" | C_MEDIUM => "MEDIUM"
  | C_HIGH => "HIGH" | C_VERY_HIGH => "VERY_HIGH"
  end.

Inductive DetectionRisk := R_NONE | R_LOW | R_MEDIUM | R_HIGH | R_CERTAIN.

Definition DetectionRisk_value (r : DetectionRisk) : Z :=
  match r with
  | R_NONE => 0 | R_LOW => 1 | R_MEDIUM => 2 | R_HIGH => 3 | R_CERTAIN => 4
  end.

Definition DetectionRisk_name (r : DetectionRisk) : string :=
  match r with
  | R_NONE => "NONE" | R_LOW => "LOW" | R_MEDIUM => "MEDIUM"
  | R_HIGH => "HIGH" | R_CERTAIN => "CERTAIN"
  end.

(* ------------------------------------------------------------------ *)
(** ** Data classes *)

Record AttackAttributes := mkAttributes {
  difficulty : Difficulty;
  cost : Cost;
  detection_risk : DetectionRisk;
  time_hours : float;
  requires_insider : bool;
  requires_physical : bool
}.

(** The dataclass defaults. *)
Definition default_attributes : AttackAttributes :=
  mkAttributes D_MEDIUM C_MEDIUM R_MEDIUM 8%float false false.

(** [AttackNode]; [children] is the nested list of sub-nodes. *)
Inductive AttackNode := mkNode {
  id : string;
  name : string;
  description : string;
  node_type : NodeType;
  attributes : AttackAttributes;
  children : list AttackNode;
  mitigations : list string;
  cve_refs : list string;
  file_refs : list string
}.

Record AttackTree := mkTree {
  tree_name : string;
  tree_description : string;
  root : AttackNode;
  version : string;
  severity : string
}.

(** Induction over nodes that sees every child of the nested list. *)
Section NodeInd.
Variable P : AttackNode -> Prop.
Hypothesis Hnode :
  forall i nm d t a cs mit cve fr,
    Forall P cs -> P (mkNode i nm d t a cs mit cve fr).

Fixpoint AttackNode_rect' (n : AttackNode) : P n :=
  match n with
  | mkNode i nm d t a cs mit cve fr =>
      Hnode i nm d t a cs mit cve fr
        ((fix go (l : list AttackNode) : Forall P l :=
            match l with
            | [] => Forall_nil_2 _
            | c :: l' => Forall_cons_2 _ _ _ (AttackNode_rect' c) (go l')
            end) cs)
  end.
End NodeInd.

(** Direct depth-first pre-order traversal of a tree (reference traversal
    against which the operations below are compared). *)
Fixpoint preorder (n : AttackNode) : list AttackNode :=
  n :: flat_map preorder (children n).

(* ------------------------------------------------------------------ *)
(** ** [_path_score] and [_find_path] *)

Definition is_leaf (n : AttackNode) : bool := NodeType_eqb (node_type n) LEAF.

(** [sum(n.attributes.X.value for n in path if n.node_type == LEAF)] *)
Definition sum_leaves (f : AttackAttributes -> Z) (path : list AttackNode) : Z :=
  fold_left (fun acc n => acc + f (attributes n))%Z (List.filter is_leaf path) 0%Z.

Definition _path_score (path : list AttackNode) (metric : string) : Z :=
  if String.eqb metric "difficulty" then
    sum_leaves (fun a => Difficulty_value (difficulty a)) path
  else if String.eqb metric "cost" then
    sum_leaves (fun a => Cost_value (cost a)) path
  else if String.eqb metric "detection" then
    sum_leaves (fun a => DetectionRisk_value (detection_risk a)) path
  else 0%Z.

(** A Python number that may be [float('inf')]. *)
Inductive score := Fin (z : Z) | Inf.

Definition score_lt (a b : score) : bool :=
  match a, b with
  | Fin x, Fin y => Z.ltb x y
  | Fin _, Inf => true
  | Inf, _ => false
  end.

(** The OR loop: [for child in node.children: ...] with the running
    [best_path] ([None] for Python's [None]) and [best_score]. *)
Fixpoint or_loop (fp : AttackNode -> list AttackNode) (minimize : string)
    (cs : list AttackNode) (best_path : option (list AttackNode))
    (best_score : score) : option (list AttackNode) * score :=
  match cs with
  | [] => (best_path, best_score)
  | child :: cs' =>
      let child_path := fp child in
      let s := _path_score child_path minimize in
      if score_lt (Fin s) best_score
      then or_loop fp minimize cs' (Some child_path) (Fin s)
      else or_loop fp minimize cs' best_path best_score
  end.

(** [best_path or []]: both [None] and an empty list are falsy. *)
Definition or_empty (p : option (list AttackNode)) : list AttackNode :=
  match p with Some l => l | None => [] end.

Fixpoint _find_path (node : AttackNode) (minimize : string) : list AttackNode :=
  if NodeType_eqb (node_type node) LEAF then [node]
  else match children node with
  | [] => [node]
  | _ =>
    if NodeType_eqb (node_type node) OR then
      let (best_path, _) :=
        or_loop (fun c => _find_path c minimize) minimize (children node) None Inf in
      ([node] ++ or_empty best_path)%list
    else
      fold_left (fun path c => (path ++ _find_path c minimize)%list)
        (children node) [node]
  end.

Definition find_easiest_path (t : AttackTree) := _find_path (root t) "difficulty".
Definition find_cheapest_path (t : AttackTree) := _find_path (root t) "cost".
Definition find_stealthiest_path (t : AttackTree) := _find_path (root t) "detection".

(* ------------------------------------------------------------------ *)
(** ** Leaf enumeration *)

(** [_collect_leaves] appends to the shared [leaves] list; the list is
    threaded through the calls. *)
Fixpoint _collect_leaves (node : AttackNode) (leaves : list AttackNode) : list AttackNode :=
  let leaves := if NodeType_eqb (node_type node) LEAF then (leaves ++ [node])%list else leaves in
  fold_left (fun acc c => _collect_leaves c acc) (children node) leaves.

Definition get_all_leaf_attacks (t : AttackTree) : list AttackNode :=
  _collect_leaves (root t) [].

Definition get_unmitigated_attacks (t : AttackTree) : list AttackNode :=
  List.filter (fun n => match mitigations n with [] => true | _ => false end)
    (get_all_leaf_attacks t).

(* ------------------------------------------------------------------ *)
(** ** Serialization: [to_dict] / [_node_to_dict] *)

(** The Python values a [to_dict] result is built of. *)
Inductive pyval :=
| PStr (s : string)
| PFloat (f : float)
| PList (l : list pyval)
| PDict (kv : list (string * pyval)).

Fixpoint _node_to_dict (node : AttackNode) : pyval :=
  PDict [
    ("id", PStr (id node));
    ("name", PStr (name node));
    ("description", PStr (description node));
    ("type", PStr (NodeType_value (node_type node)));
    ("attributes", PDict [
        ("difficulty", PStr (Difficulty_name (difficulty (attributes node))));
        ("cost", PStr (Cost_name (cost (attributes node))));
        ("detection_risk", PStr (DetectionRisk_name (detection_risk (attributes node))));
        ("time_hours", PFloat (time_hours (attributes node)))]);
    ("mitigations", PList (map PStr (mitigations node)));
    ("file_refs", PList (map PStr (file_refs node)));
    ("children", PList (map (fun c => _node_to_dict c) (children node)))].

Definition to_dict (t : AttackTree) : pyval :=
  PDict [
    ("name", PStr (tree_name t));
    ("description", PStr (tree_description t));
    ("severity", PStr (severity t));
    ("version", PStr (version t));
    ("root", _node_to_dict (root t))].

(** [d[k]] on a dict given by its items. *)
Fixpoint py_get (k : string) (kv : list (string * pyval)) : option pyval :=
  match kv with
  | [] => None
  | (k', v) :: kv' => if String.eqb k k' then Some v else py_get k kv'
  end.

Definition py_keys (v : pyval) : list string :=
  match v with PDict kv => map fst kv | _ => [] end.

(** A re-walk of a serialized structure: the tree of [id] values obtained
    by following [d["children"]] from an entry. *)
Inductive IdTree := IdNode (i : string) (cs : list IdTree).

Fixpoint id_shape (n : AttackNode) : IdTree :=
  IdNode (id n) (map id_shape (children n)).

Fixpoint idtree_ids (t : IdTree) : list string :=
  match t with IdNode i cs => i :: flat_map idtree_ids cs end.

(** [[f(x) for x in xs]] where any [None] makes the whole walk fail. *)
Fixpoint traverse_option {A B : Type} (f : A -> option B) (xs : list A) : option (list B) :=
  match xs with
  | [] => Some []
  | x :: xs' =>
      match f x, traverse_option f xs' with
      | Some y, Some ys => Some (y :: ys)
      | _, _ => None
      end
  end.

Fixpoint rewalk (v : pyval) : option IdTree :=
  match v with
  | PDict kv =>
      let the_id :=
        match py_get "id" kv with Some (PStr s) => Some s | _ => None end in
      let the_children :=
        (fix get_ch (kv : list (string * pyval)) : option (list IdTree) :=
           match kv with
           | [] => None
           | (k, w) :: kv' =>
               if String.eqb "children" k
               then match w with
                    | PList cs => traverse_option rewalk cs
                    | _ => None
                    end
               else get_ch kv'
           end) kv in
      match the_id, the_children with
      | Some i, Some ts => Some (IdNode i ts)
      | _, _ => None
      end
  | _ => None
  end.

(** The node entries reached by the re-walk, root-first. *)
Fixpoint rewalk_entries (v : pyval) : list pyval :=
  match v with
  | PDict kv =>
      v :: (fix get_ch (kv : list (string * pyval)) : list pyval :=
              match kv with
              | [] => []
              | (k, w) :: kv' =>
                  if String.eqb "children" k
                  then match w with
                       | PList cs => flat_map rewalk_entries cs
                       | _ => []
                       end
                  else get_ch kv'
              end) kv
  | _ => []
  end.

(* ------------------------------------------------------------------ *)
(** ** [MermaidExporter] *)

(** Entries of [self._lines], kept apart by what [_export_node] appends;
    [render_line] gives the text of each. *)
Inductive mline :=
| LText (s : string)                       (* header and legend lines *)
| LStyle (node_id style : string)          (* f"    style {node_id} {style}" *)
| LShape (shape : string)                  (* f"    {shape}" *)
| LEdge (parent_id connector node_id : string). (* f"    {parent_id} {connector} {node_id}" *)

Definition render_line (l : mline) : string :=
  match l with
  | LText s => s
  | LStyle nid st => "    style " ++ nid ++ " " ++ st
  | LShape sh => "    " ++ sh
  | LEdge p c nid => "    " ++ p ++ " " ++ c ++ " " ++ nid
  end.

Definition newline : string := String (Ascii.ascii_of_nat 10) EmptyString.

(** The exporter object's fields. *)
Record MermaidExporter := mkExporter {
  tree : AttackTree;
  _lines : list mline;
  _node_count : nat;
  _node_ids : gmap string string
}.

Definition MermaidExporter_init (t : AttackTree) : MermaidExporter :=
  mkExporter t [] 0 ∅.

Definition set_lines (ex : MermaidExporter) (ls : list mline) : MermaidExporter :=
  mkExporter (tree ex) ls (_node_count ex) (_node_ids ex).

Definition append_line (ex : MermaidExporter) (l : mline) : MermaidExporter :=
  set_lines ex (_lines ex ++ [l])%list.

Definition Difficulty_eqb (a b : Difficulty) : bool :=
  match a, b with
  | D_TRIVIAL, D_TRIVIAL | D_LOW, D_LOW | D_MEDIUM, D_MEDIUM
  | D_HIGH, D_HIGH | D_EXPERT, D_EXPERT => true
  | _, _ => false
  end.

Definition colors : list (Difficulty * string) := [
  (D_TRIVIAL, "fill:#ff6b6b,stroke:#c92a2a,stroke-width:3px");
  (D_LOW, "fill:#ffa06b,stroke:#e67700,stroke-width:2px");
  (D_MEDIUM, "fill:#ffd93d,stroke:#fab005,stroke-width:2px");
  (D_HIGH, "fill:#6bcb77,stroke:#2f9e44,stroke-width:2px");
  (D_EXPERT, "fill:#4d96ff,stroke:#1971c2,stroke-width:2px")].

(** [colors.get(key, default)] *)
Fixpoint colors_get (tbl : list (Difficulty * string)) (k : Difficulty)
    (default : string) : string :=
  match tbl with
  | [] => default
  | (k', v) :: tbl' => if Difficulty_eqb k k' then v else colors_get tbl' k default
  end.

Definition _get_leaf_style (node : AttackNode) : string :=
  let color := colors_get colors (difficulty (attributes node)) "fill:#gray" in
  let has_mitigation :=
    match mitigations node with
    | [] => ""
    | _ => "stroke:#51cf66,stroke-width:3px"
    end in
  if String.eqb has_mitigation "" then color else "fill:#d3f9d8," ++ has_mitigation.

(** Python truthiness of [parent_id : Optional[str]]. *)
Definition truthy (p : option string) : bool :=
  match p with Some s => negb (String.eqb s "") | None => false end.

(** The memo step of [_export_node]: reuse [self._node_ids[node.id]] or
    create [f"N{self._node_count}"]. *)
Definition assign_id (node : AttackNode) (ex : MermaidExporter) : string * MermaidExporter :=
  match _node_ids ex !! id node with
  | Some node_id => (node_id, ex)
  | None =>
      let node_id := "N" ++ pretty (_node_count ex) in
      (node_id, mkExporter (tree ex) (_lines ex) (S (_node_count ex))
                  (<[id node := node_id]> (_node_ids ex)))
  end.

Definition connector_of (node : AttackNode) : string :=
  if negb (NodeType_eqb (node_type node) AND) then "-->" else "==>".

Fixpoint _export_node (node : AttackNode) (parent_id : option string)
    (ex : MermaidExporter) : string * MermaidExporter :=
  let (node_id, ex) := assign_id node ex in
  let ex :=
    match node_type node with
    | OR => append_line ex (LShape (node_id ++ "(('" ++ name node ++ "')"))
    | AND => append_line ex (LShape (node_id ++ "['" ++ name node ++ "']"))
    | LEAF =>
        let style := _get_leaf_style node in
        let shape := node_id ++ "['" ++ name node ++ "']" in
        let ex := append_line ex (LStyle node_id style) in
        append_line ex (LShape shape)
    end in
  let ex :=
    if truthy parent_id
    then append_line ex (LEdge (default "" parent_id) (connector_of node) node_id)
    else ex in
  let ex := fold_left (fun ex c => snd (_export_node c (Some node_id) ex))
              (children node) ex in
  (node_id, ex).

Definition _add_legend (ex : MermaidExporter) : MermaidExporter :=
  let ex := append_line ex (LText (newline ++ "    classDef trivial fill:#ff6b6b,stroke:#c92a2a,stroke-width:3px")) in
  let ex := append_line ex (LText "    classDef low fill:#ffa06b,stroke:#e67700,stroke-width:2px") in
  let ex := append_line ex (LText "    classDef medium fill:#ffd93d,stroke:#fab005,stroke-width:2px") in
  let ex := append_line ex (LText "    classDef high fill:#6bcb77,stroke:#2f9e44,stroke-width:2px") in
  append_line ex (LText "    classDef expert fill:#4d96ff,stroke:#1971c2,stroke-width:2px").

(** [export()] returns the joined text and leaves the exporter updated
    (its memo survives between calls). *)
Definition export_state (ex : MermaidExporter) : MermaidExporter :=
  let ex := set_lines ex [LText "flowchart TD"] in
  let ex := snd (_export_node (root (tree ex)) None ex) in
  _add_legend ex.

Definition export (ex : MermaidExporter) : string * MermaidExporter :=
  let ex := export_state ex in
  (String.concat newline (map render_line (_lines ex)), ex).

(** Line counts of an export. *)
Definition is_shape (l : mline) : bool := match l with LShape _ => true | _ => false end.
Definition is_edge (l : mline) : bool := match l with LEdge _ _ _ => true | _ => false end.
Definition count_lines (f : mline -> bool) (ls : list mline) : nat :=
  length (List.filter f ls).

(** [d[k]] on any value ([None] where Python raises). *)
Definition py_field (k : string) (v : pyval) : option pyval :=
  match v with PDict kv => py_get k kv | _ => None end.

(** The fields an entry of [to_dict] carries for node [n]. *)
Definition node_entry_ok (n : AttackNode) (e : pyval) : Prop :=
  py_keys e = ["id"; "name"; "description"; "type"; "attributes";
               "mitigations"; "file_refs"; "children"] /\
  py_field "id" e = Some (PStr (id n)) /\
  py_field "name" e = Some (PStr (name n)) /\
  py_field "description" e = Some (PStr (description n)) /\
  py_field "type" e = Some (PStr (NodeType_value (node_type n))) /\
  py_field "attributes" e = Some (PDict [
      ("difficulty", PStr (Difficulty_name (difficulty (attributes n))));
      ("cost", PStr (Cost_name (cost (attributes n))));
      ("detection_risk", PStr (DetectionRisk_name (detection_risk (attributes n))));
      ("time_hours", PFloat (time_hours (attributes n)))]) /\
  py_field "mitigations" e = Some (PList (map PStr (mitigations n))) /\
  py_field "file_refs" e = Some (PList (map PStr (file_refs n))) /\
  py_field "children" e = Some (PList (map _node_to_dict (children n))).

(** Every identifier stored in the memo is a non-empty (truthy) string. *)
Definition memo_ok (ex : MermaidExporter) : Prop :=
  forall k v, _node_ids ex !! k = Some v -> v <> "".

(** What exporting [n] under [parent_id] adds to the line counts. *)
Definition counts_spec (n : AttackNode) (parent_id : option string)
    (ex ex' : MermaidExporter) : Prop :=
  memo_ok ex' /\
  count_lines is_shape (_lines ex') = count_lines is_shape (_lines ex) + length (preorder n) /\
  count_lines is_edge (_lines ex') =
    count_lines is_edge (_lines ex) + (if truthy parent_id then 1 else 0)
    + length (flat_map preorder (children n)).

(** Exporting only extends the lines and the memo. *)
Definition grows (ex ex' : MermaidExporter) : Prop :=
  _node_ids ex ⊆ _node_ids ex' /\ exists suf, _lines ex' = (_lines ex ++ suf)%list.

(** ** [AttackNode.add_child] *)

(** [self.children.append(child)]: the receiver, updated. *)
Definition add_child (self child : AttackNode) : AttackNode :=
  mkNode (id self) (name self) (description self) (node_type self) (attributes self)
    (children self ++ [child])%list (mitigations self) (cve_refs self) (file_refs self).

(** ** Attack paths of an AND/OR tree

    [solution n p]: [p] is a way to reach the goal [n] in the sense the
    search uses: a LEAF or a childless node stands alone, an OR node
    needs one child's solution, an AND node needs a solution of every
    child, in child order. *)
Inductive solution : AttackNode -> list AttackNode -> Prop :=
| sol_leaf n : node_type n = LEAF -> solution n [n]
| sol_empty n : children n = [] -> solution n [n]
| sol_or n c p :
    node_type n = OR -> children n <> [] -> In c (children n) ->
    solution c p -> solution n (n :: p)
| sol_and n ps :
    node_type n = AND -> children n <> [] -> Forall2 solution (children n) ps ->
    solution n (n :: concat ps).

(** The lines [_export_node] appends for the node itself, before its
    children (see [export_node_step]). *)
Definition own_emit (node : AttackNode) (parent_id : option string) (node_id : string) : list mline :=
  (match node_type node with
   | OR => [LShape (node_id ++ "(('" ++ name node ++ "')")]
   | AND => [LShape (node_id ++ "['" ++ name node ++ "']")]
   | LEAF => [LStyle node_id (_get_leaf_style node); LShape (node_id ++ "['" ++ name node ++ "']")]
   end ++
   if truthy parent_id
   then [LEdge (default "" parent_id) (connector_of node) node_id]
   else [])%list.

(** [l] is an edge line ending at the diagram identifier [ix]. *)
Definition is_edge_to (ix : string) (l : mline) : bool :=
  match l with LEdge _ _ dst => String.eqb dst ix | _ => false end.

(** The lines of an export of [node] under [parent_id] in which every node
    is drawn under the identifier [ident] gives its id. *)
Fixpoint emit_by_id (ident : string -> string) (node : AttackNode) (parent_id : option string)
    : list mline :=
  (own_emit node parent_id (ident (id node)) ++
   flat_map (fun c => emit_by_id ident c (Some (ident (id node)))) (children node))%list.

(** Memo invariant: distinct keys hold distinct identifiers, each of the
    form [N{j}] with [j] below the counter. *)
Definition memo_inj (ex : MermaidExporter) : Prop :=
  (forall k1 k2 v, _node_ids ex !! k1 = Some v -> _node_ids ex !! k2 = Some v -> k1 = k2) /\
  (forall k v, _node_ids ex !! k = Some v ->
     exists j, j < _node_count ex /\ v = ("N" ++ pretty j)%string).

(** ** Sample trees *)

Definition sample_leaf (i : string) (d : Difficulty) (c : Cost) (mit : list string) : AttackNode :=
  mkNode i i "" LEAF (mkAttributes d c R_LOW 1%float false false) [] mit [] [].

(** root(OR) -> {A: TRIVIAL / LOW cost, B: HIGH / MEDIUM cost} *)
Definition sample_or : AttackNode :=
  mkNode "G" "root" "" OR default_attributes
    [sample_leaf "A" D_TRIVIAL C_LOW []; sample_leaf "B" D_HIGH C_MEDIUM []] [] [] [].

(** root(AND) -> {A, B} as above *)
Definition sample_and : AttackNode :=
  mkNode "G" "root" "" AND default_attributes
    [sample_leaf "A" D_TRIVIAL C_LOW []; sample_leaf "B" D_HIGH C_MEDIUM []] [] [] [].

(** An OR root over an AND sub-goal over one unmitigated and one
    mitigated leaf. *)
Definition sample_or_and_tree : AttackTree :=
  mkTree "t" "" (mkNode "R" "r" "" OR default_attributes
    [mkNode "G" "g" "" AND default_attributes
       [sample_leaf "A" D_TRIVIAL C_LOW []; sample_leaf "B" D_EXPERT C_HIGH ["csp"]]
       [] [] []] [] [] []) "1.0" "HIGH".

(* ================================================================== *)
(** * Lemmas *)

Open Scope list_scope.

(** ** Path scores *)

Lemma fold_left_add_shift (g : AttackNode -> Z) (l : list AttackNode) (z : Z) :
  fold_left (fun acc n => acc + g n)%Z l z = (z + fold_left (fun acc n => acc + g n)%Z l 0)%Z.
Proof.
  revert z; induction l as [|x l IH]; intros z; simpl; [lia|].
  rewrite (IH (z + g x)%Z), (IH (0 + g x)%Z). lia.
Qed.

Lemma sum_leaves_app (f : AttackAttributes -> Z) (a b : list AttackNode) :
  sum_leaves f (a ++ b) = (sum_leaves f a + sum_leaves f b)%Z.
Proof.
  unfold sum_leaves. rewrite List.filter_app, fold_left_app.
  rewrite fold_left_add_shift. reflexivity.
Qed.

Lemma sum_leaves_cons (f : AttackAttributes -> Z) (x : AttackNode) (l : list AttackNode) :
  sum_leaves f (x :: l) = ((if is_leaf x then f (attributes x) else 0) + sum_leaves f l)%Z.
Proof.
  change (x :: l) with ([x] ++ l). rewrite sum_leaves_app.
  unfold sum_leaves; simpl. destruct (is_leaf x); simpl; lia.
Qed.

Lemma path_score_app (a b : list AttackNode) (m : string) :
  _path_score (a ++ b) m = (_path_score a m + _path_score b m)%Z.
Proof.
  unfold _path_score.
  destruct (String.eqb m "difficulty"); [apply sum_leaves_app|].
  destruct (String.eqb m "cost"); [apply sum_leaves_app|].
  destruct (String.eqb m "detection"); [apply sum_leaves_app|]. lia.
Qed.

Lemma path_score_cons_nonleaf (x : AttackNode) (l : list AttackNode) (m : string) :
  is_leaf x = false -> _path_score (x :: l) m = _path_score l m.
Proof.
  intros Hx. change (x :: l) with ([x] ++ l). rewrite path_score_app.
  unfold _path_score, sum_leaves; simpl; rewrite Hx; simpl.
  destruct (String.eqb m "difficulty"); [lia|].
  destruct (String.eqb m "cost"); [lia|].
  destruct (String.eqb m "detection"); lia.
Qed.

(** ** [_find_path] *)

Lemma find_path_eq (n : AttackNode) (m : string) :
  _find_path n m =
  if NodeType_eqb (node_type n) LEAF then [n]
  else match children n with
  | [] => [n]
  | _ =>
    if NodeType_eqb (node_type n) OR then
      let (best_path, _) :=
        or_loop (fun c => _find_path c m) m (children n) None Inf in
      ([n] ++ or_empty best_path)%list
    else fold_left (fun path c => (path ++ _find_path c m)%list) (children n) [n]
  end.
Proof. destruct n; reflexivity. Qed.

Lemma fold_left_extend (g : AttackNode -> list AttackNode) (cs acc : list AttackNode) :
  fold_left (fun path c => (path ++ g c)%list) cs acc = (acc ++ concat (map g cs))%list.
Proof.
  revert acc; induction cs as [|c cs IH]; intros acc; simpl.
  - by rewrite app_nil_r.
  - rewrite IH. by rewrite app_assoc.
Qed.

(** What the OR loop settles on, from any running state: either it keeps
    the state (no candidate beats it), or it ends on the candidate at some
    index [i], strictly better than every earlier one and than the start,
    and no worse than every later one. *)
Lemma or_loop_spec (fp : AttackNode -> list AttackNode) (m : string)
    (cs : list AttackNode) (bp : option (list AttackNode)) (bs : score) :
  let sc := fun c => _path_score (fp c) m in
  (or_loop fp m cs bp bs = (bp, bs) /\
   Forall (fun c => score_lt (Fin (sc c)) bs = false) cs) \/
  (exists i c, cs !! i = Some c /\
     or_loop fp m cs bp bs = (Some (fp c), Fin (sc c)) /\
     score_lt (Fin (sc c)) bs = true /\
     forall j c', cs !! j = Some c' ->
       (j < i -> (sc c < sc c')%Z) /\ (i < j -> (sc c <= sc c')%Z)).
Proof.
  intros sc. revert bp bs.
  induction cs as [|c0 cs IH]; intros bp bs; cbn [or_loop].
  - left; split; [reflexivity | constructor].
  - fold (sc c0). destruct (score_lt (Fin (sc c0)) bs) eqn:Hlt; rewrite ?Hlt.
    + right. destruct (IH (Some (fp c0)) (Fin (sc c0)))
        as [[Heq Hall] | (i & c & Hi & Heq & Hlt' & Hord)].
      * exists 0, c0. split; [reflexivity|]. split; [exact Heq|].
        split; [exact Hlt|]. intros j c' Hj. split; [lia|].
        intros Hij. destruct j as [|j]; [lia|]. simpl in Hj.
        rewrite Forall_forall in Hall.
        specialize (Hall c' (list_elem_of_lookup_2 _ _ _ Hj)).
        simpl in Hall. apply Z.ltb_ge in Hall. lia.
      * exists (S i), c. split; [exact Hi|]. split; [exact Heq|].
        simpl in Hlt'. apply Z.ltb_lt in Hlt'.
        split.
        { destruct bs as [z|]; simpl in *; [|reflexivity].
          apply Z.ltb_lt in Hlt. apply Z.ltb_lt. lia. }
        intros j c' Hj. destruct j as [|j].
        -- simpl in Hj. injection Hj as <-. split; [intros; lia | lia].
        -- simpl in Hj. specialize (Hord j c' Hj). split; intros; apply Hord; lia.
    + destruct (IH bp bs) as [[Heq Hall] | (i & c & Hi & Heq & Hlt' & Hord)].
      * left. split; [exact Heq|]. constructor; assumption.
      * right. exists (S i), c. split; [exact Hi|]. split; [exact Heq|].
        split; [exact Hlt'|].
        intros j c' Hj. destruct j as [|j].
        -- simpl in Hj. injection Hj as <-. split; [|lia]. intros _.
           destruct bs as [z|]; simpl in *; [|discriminate].
           apply Z.ltb_lt in Hlt'. apply Z.ltb_ge in Hlt. lia.
        -- simpl in Hj. specialize (Hord j c' Hj). split; intros; apply Hord; lia.
Qed.

Lemma find_path_head (n : AttackNode) (m : string) :
  exists rest, _find_path n m = n :: rest.
Proof.
  rewrite find_path_eq.
  destruct (NodeType_eqb (node_type n) LEAF); [eauto|].
  destruct (children n); [eauto|].
  destruct (NodeType_eqb (node_type n) OR).
  - destruct (or_loop _ _ _ _ _). simpl. eauto.
  - rewrite fold_left_extend. simpl. eauto.
Qed.

Lemma path_score_concat (g : AttackNode -> list AttackNode) (cs : list AttackNode) (m : string) :
  _path_score (concat (map g cs)) m = fold_right Z.add 0%Z (map (fun c => _path_score (g c) m) cs).
Proof.
  induction cs as [|c cs IH]; simpl.
  - unfold _path_score, sum_leaves; simpl.
    destruct (String.eqb m "difficulty"); [lia|].
    destruct (String.eqb m "cost"); [lia|].
    destruct (String.eqb m "detection"); lia.
  - rewrite path_score_app, IH. reflexivity.
Qed.

(* ================================================================== *)
(** * Claims *)

(** ** Path search *)

(** C1: for an OR node with children, [_find_path] returns the node
    followed by the best path of one child [c]; its score equals that
    child's best-path score, which is no larger than any child's best-path
    score and strictly smaller than that of every earlier child (ties go
    to the first child, the comparison being strict). *)
Theorem find_path_or_best (n : AttackNode) (m : string) :
  node_type n = OR -> children n <> [] ->
  exists i c, children n !! i = Some c /\
    _find_path n m = n :: _find_path c m /\
    _path_score (_find_path n m) m = _path_score (_find_path c m) m /\
    forall j c', children n !! j = Some c' ->
      (_path_score (_find_path c m) m <= _path_score (_find_path c' m) m)%Z /\
      (j < i -> (_path_score (_find_path c m) m < _path_score (_find_path c' m) m)%Z).
Proof.
  intros Hor Hne.
  assert (Hnl : is_leaf n = false) by (unfold is_leaf; rewrite Hor; reflexivity).
  rewrite (find_path_eq n m), Hor. cbn [NodeType_eqb].
  destruct (children n) as [|c0 cs] eqn:Hch; [congruence|].
  destruct (or_loop_spec (fun c => _find_path c m) m (c0 :: cs) None Inf)
    as [[_ Hall] | (i & c & Hi & Heq & _ & Hord)].
  - inversion Hall as [|? ? Hc0]; simpl in Hc0; discriminate.
  - rewrite Heq. exists i, c. simpl.
    split; [exact Hi|]. split; [reflexivity|]. split.
    + apply path_score_cons_nonleaf. exact Hnl.
    + intros j c' Hj. specialize (Hord j c' Hj). simpl in Hord.
      destruct (Nat.lt_trichotomy j i) as [Hlt|[->|Hgt]].
      * split; [|intros _]; apply Z.lt_le_incl || idtac; apply Hord; exact Hlt.
      * rewrite Hi in Hj. injection Hj as <-. split; [lia | intros; lia].
      * split; [apply Hord; exact Hgt | intros; lia].
Qed.

(** C2: for an AND node with children, [_find_path] returns the node
    followed by the concatenation, in child order, of every child's best
    path, and its score is the sum of the children's best-path scores. *)
Theorem find_path_and_concat (n : AttackNode) (m : string) :
  node_type n = AND -> children n <> [] ->
  _find_path n m = n :: concat (map (fun c => _find_path c m) (children n)) /\
  _path_score (_find_path n m) m =
    fold_right Z.add 0%Z (map (fun c => _path_score (_find_path c m) m) (children n)).
Proof.
  intros Hand Hne.
  assert (Hnl : is_leaf n = false) by (unfold is_leaf; rewrite Hand; reflexivity).
  assert (Hp : _find_path n m = n :: concat (map (fun c => _find_path c m) (children n))).
  { rewrite (find_path_eq n m), Hand. cbn [NodeType_eqb].
    destruct (children n) as [|c0 cs]; [congruence|].
    rewrite fold_left_extend. reflexivity. }
  split; [exact Hp|]. rewrite Hp, path_score_cons_nonleaf by exact Hnl.
  apply path_score_concat.
Qed.

(** C3: a LEAF, or a node without children, gets the one-node path
    [[node]]; for a LEAF it scores the leaf's own difficulty, cost or
    detection-risk value, for a childless OR/AND node it scores 0. *)
Theorem find_path_single (n : AttackNode) (m : string) :
  node_type n = LEAF \/ children n = [] ->
  _find_path n m = [n] /\
  (node_type n = LEAF ->
     _path_score (_find_path n "difficulty") "difficulty" = Difficulty_value (difficulty (attributes n)) /\
     _path_score (_find_path n "cost") "cost" = Cost_value (cost (attributes n)) /\
     _path_score (_find_path n "detection") "detection" = DetectionRisk_value (detection_risk (attributes n))) /\
  (node_type n <> LEAF -> _path_score (_find_path n m) m = 0%Z).
Proof.
  intros H.
  assert (Hs : forall m', _find_path n m' = [n]).
  { intros m'. rewrite (find_path_eq n m').
    destruct H as [Hl | Hc]; [rewrite Hl; reflexivity|].
    rewrite Hc. destruct (NodeType_eqb (node_type n) LEAF); reflexivity. }
  split; [apply Hs|]. rewrite !Hs. split.
  - intros Hl. unfold _path_score, sum_leaves. simpl.
    unfold is_leaf. rewrite Hl. simpl. lia.
  - intros Hnl. rewrite path_score_cons_nonleaf.
    + unfold _path_score, sum_leaves; simpl.
      destruct (String.eqb m "difficulty"); [lia|].
      destruct (String.eqb m "cost"); [lia|].
      destruct (String.eqb m "detection"); lia.
    + unfold is_leaf. destruct (node_type n); simpl; congruence.
Qed.

(** C10: for an OR node with at least one child the loop always sets
    [best_path] to a non-empty path, so [best_path or []] never falls
    back to [[]] and the result has at least two nodes. *)
Theorem or_best_path_some (n : AttackNode) (m : string) :
  node_type n = OR -> children n <> [] ->
  (exists p, fst (or_loop (fun c => _find_path c m) m (children n) None Inf) = Some p /\ p <> []) /\
  2 <= length (_find_path n m).
Proof.
  intros Hor Hne.
  destruct (or_loop_spec (fun c => _find_path c m) m (children n) None Inf)
    as [[_ Hall] | (i & c & Hi & Heq & _ & Hord)].
  - destruct (children n) as [|c0 cs]; [congruence|].
    inversion Hall as [|? ? Hc0]; simpl in Hc0; discriminate.
  - split.
    + exists (_find_path c m). rewrite Heq. split; [reflexivity|].
      destruct (find_path_head c m) as [rest ->]. discriminate.
    + rewrite (find_path_eq n m), Hor. cbn [NodeType_eqb].
      destruct (children n) as [|c0 cs]; [congruence|].
      rewrite Heq. destruct (find_path_head c m) as [rest ->]. simpl. lia.
Qed.

(** ** Leaf enumeration *)

Lemma collect_leaves_fold (cs : list AttackNode) (acc : list AttackNode) :
  Forall (fun c => forall acc, _collect_leaves c acc = acc ++ List.filter is_leaf (preorder c)) cs ->
  fold_left (fun acc c => _collect_leaves c acc) cs acc =
  acc ++ List.filter is_leaf (flat_map preorder cs).
Proof.
  intros H. revert acc. induction H as [|c cs Hc _ IH]; intros acc; simpl.
  - by rewrite app_nil_r.
  - rewrite IH, Hc, List.filter_app. by rewrite app_assoc.
Qed.

Lemma collect_leaves_preorder (n : AttackNode) (acc : list AttackNode) :
  _collect_leaves n acc = acc ++ List.filter is_leaf (preorder n).
Proof.
  revert acc. induction n as [i nm d t a cs mit cve fr IH] using AttackNode_rect'.
  intros acc. cbn [_collect_leaves preorder children node_type].
  rewrite collect_leaves_fold by exact IH.
  cbn [List.filter]. unfold is_leaf at 2. cbn [node_type].
  destruct (NodeType_eqb t LEAF); simpl; [by rewrite <- app_assoc | reflexivity].
Qed.

Lemma filter_negb_length {A : Type} (f : A -> bool) (l : list A) :
  length (List.filter f l) + length (List.filter (fun x => negb (f x)) l) = length l.
Proof. induction l as [|x l IH]; simpl; [lia|]. destruct (f x); simpl; lia. Qed.

Lemma filter_filter_andb {A : Type} (f g : A -> bool) (l : list A) :
  List.filter g (List.filter f l) = List.filter (fun x => f x && g x) l.
Proof.
  induction l as [|x l IH]; simpl; [reflexivity|].
  destruct (f x); simpl; [destruct (g x)|]; rewrite ?IH; reflexivity.
Qed.

(** C5: [get_all_leaf_attacks] is exactly the LEAF nodes of the
    depth-first pre-order traversal, in that order; leaves plus non-leaf
    nodes count all nodes; [get_unmitigated_attacks] is the subsequence of
    those leaves whose mitigations list is empty. *)
Theorem leaf_enumeration (t : AttackTree) :
  get_all_leaf_attacks t = List.filter is_leaf (preorder (root t)) /\
  length (get_all_leaf_attacks t)
    + length (List.filter (fun n => negb (is_leaf n)) (preorder (root t)))
    = length (preorder (root t)) /\
  get_unmitigated_attacks t =
    List.filter (fun n => is_leaf n && match mitigations n with [] => true | _ => false end)
      (preorder (root t)).
Proof.
  assert (H : get_all_leaf_attacks t = List.filter is_leaf (preorder (root t))).
  { unfold get_all_leaf_attacks. apply collect_leaves_preorder. }
  split; [exact H|]. split.
  - rewrite H. apply filter_negb_length.
  - unfold get_unmitigated_attacks. rewrite H. apply filter_filter_andb.
Qed.

(** ** Serialization *)

Lemma traverse_rewalk (cs : list AttackNode) :
  Forall (fun c => rewalk (_node_to_dict c) = Some (id_shape c)) cs ->
  traverse_option rewalk (map _node_to_dict cs) = Some (map id_shape cs).
Proof.
  induction 1 as [|c cs Hc _ IH]; simpl; [reflexivity|].
  by rewrite Hc, IH.
Qed.

Lemma rewalk_node_to_dict (n : AttackNode) :
  rewalk (_node_to_dict n) = Some (id_shape n).
Proof.
  induction n as [i nm d t a cs mit cve fr IH] using AttackNode_rect'.
  cbn [_node_to_dict rewalk]. simpl.
  change (map (fun c => _node_to_dict c) cs) with (map _node_to_dict cs).
  rewrite traverse_rewalk by exact IH. reflexivity.
Qed.

Lemma idtree_ids_preorder (n : AttackNode) :
  idtree_ids (id_shape n) = map id (preorder n).
Proof.
  induction n as [i nm d t a cs mit cve fr IH] using AttackNode_rect'.
  simpl. f_equal. induction IH as [|c cs Hc _ IHcs]; simpl; [reflexivity|].
  rewrite map_app, Hc, IHcs. reflexivity.
Qed.

Lemma rewalk_entries_node_to_dict (n : AttackNode) :
  rewalk_entries (_node_to_dict n) = map _node_to_dict (preorder n).
Proof.
  induction n as [i nm d t a cs mit cve fr IH] using AttackNode_rect'.
  cbn [_node_to_dict rewalk_entries]. simpl. f_equal.
  induction IH as [|c cs Hc _ IHcs]; simpl; [reflexivity|].
  rewrite map_app, Hc, IHcs. reflexivity.
Qed.

Lemma node_to_dict_entry_ok (n : AttackNode) : node_entry_ok n (_node_to_dict n).
Proof. destruct n; repeat split. Qed.

(** C6: following the nested [children] lists from the [root] entry of
    [to_dict] rebuilds the tree of ids of the original tree (hence the same
    node count, id set and parent/child order as a direct traversal), and
    the entries met are, node by node in pre-order, dicts with id, name,
    description, type, attributes (enum names and time_hours),
    mitigations, file_refs and children. *)
Theorem to_dict_roundtrip (t : AttackTree) :
  exists v, py_field "root" (to_dict t) = Some v /\
    rewalk v = Some (id_shape (root t)) /\
    idtree_ids (id_shape (root t)) = map id (preorder (root t)) /\
    length (idtree_ids (id_shape (root t))) = length (preorder (root t)) /\
    rewalk_entries v = map _node_to_dict (preorder (root t)) /\
    Forall2 node_entry_ok (preorder (root t)) (rewalk_entries v).
Proof.
  exists (_node_to_dict (root t)). split; [reflexivity|].
  split; [apply rewalk_node_to_dict|].
  split; [apply idtree_ids_preorder|].
  split; [rewrite idtree_ids_preorder; apply length_map|].
  split; [apply rewalk_entries_node_to_dict|].
  rewrite rewalk_entries_node_to_dict.
  induction (preorder (root t)) as [|x l IH]; simpl; constructor; [|exact IH].
  apply node_to_dict_entry_ok.
Qed.

(** ** Mermaid export *)

Lemma count_lines_app (f : mline -> bool) (a b : list mline) :
  count_lines f (a ++ b) = count_lines f a + count_lines f b.
Proof. unfold count_lines. by rewrite List.filter_app, length_app. Qed.

Lemma lines_append (ex : MermaidExporter) (l : mline) :
  _lines (append_line ex l) = _lines ex ++ [l].
Proof. reflexivity. Qed.

Lemma ids_append (ex : MermaidExporter) (l : mline) :
  _node_ids (append_line ex l) = _node_ids ex.
Proof. reflexivity. Qed.

Lemma memo_ok_append (ex : MermaidExporter) (l : mline) :
  memo_ok ex -> memo_ok (append_line ex l).
Proof. unfold memo_ok. by rewrite ids_append. Qed.

Lemma grows_refl (ex : MermaidExporter) : grows ex ex.
Proof. split; [reflexivity | exists []; by rewrite app_nil_r]. Qed.

Lemma grows_trans (a b c : MermaidExporter) : grows a b -> grows b c -> grows a c.
Proof.
  intros [Hab [s1 H1]] [Hbc [s2 H2]]. split; [by transitivity (_node_ids b)|].
  exists (s1 ++ s2). by rewrite H2, H1, app_assoc.
Qed.

Lemma grows_append (ex : MermaidExporter) (l : mline) : grows ex (append_line ex l).
Proof. split; [by rewrite ids_append | exists [l]; reflexivity]. Qed.

Lemma assign_id_spec (n : AttackNode) (ex : MermaidExporter) :
  _node_ids (snd (assign_id n ex)) !! id n = Some (fst (assign_id n ex)) /\
  _lines (snd (assign_id n ex)) = _lines ex /\
  _node_ids ex ⊆ _node_ids (snd (assign_id n ex)) /\
  (memo_ok ex -> memo_ok (snd (assign_id n ex)) /\ fst (assign_id n ex) <> "").
Proof.
  unfold assign_id. destruct (_node_ids ex !! id n) as [v|] eqn:Hl; simpl.
  - split; [exact Hl|]. split; [reflexivity|]. split; [reflexivity|].
    intros Hok. split; [exact Hok | exact (Hok _ _ Hl)].
  - split; [apply lookup_insert_eq|]. split; [reflexivity|].
    split; [by apply insert_subseteq|].
    intros Hok. split; [|discriminate].
    intros k v Hk. simpl in Hk. apply lookup_insert_Some in Hk as [[_ <-] | [_ Hk]];
      [discriminate | exact (Hok _ _ Hk)].
Qed.

Lemma grows_assign (n : AttackNode) (ex : MermaidExporter) : grows ex (snd (assign_id n ex)).
Proof.
  destruct (assign_id_spec n ex) as (_ & Hl & Hs & _).
  split; [exact Hs | exists []; by rewrite Hl, app_nil_r].
Qed.

Lemma export_node_fst (n : AttackNode) (p : option string) (ex : MermaidExporter) :
  fst (_export_node n p ex) = fst (assign_id n ex).
Proof.
  destruct n as [i nm d t a cs mit cve fr]. cbn [_export_node].
  destruct (assign_id (mkNode i nm d t a cs mit cve fr) ex) as [nid ex1]. reflexivity.
Qed.

(** The own step of [_export_node] before the children loop. *)
Lemma export_node_unfold (n : AttackNode) (p : option string) (ex : MermaidExporter) :
  snd (_export_node n p ex) =
  fold_left (fun e c => snd (_export_node c (Some (fst (assign_id n ex))) e))
    (children n)
    (let ex1 := snd (assign_id n ex) in
     let node_id := fst (assign_id n ex) in
     let ex2 :=
       match node_type n with
       | OR => append_line ex1 (LShape (node_id ++ "(('" ++ name n ++ "')")%string)
       | AND => append_line ex1 (LShape (node_id ++ "['" ++ name n ++ "']")%string)
       | LEAF =>
           append_line (append_line ex1 (LStyle node_id (_get_leaf_style n)))
             (LShape (node_id ++ "['" ++ name n ++ "']")%string)
       end in
     if truthy p
     then append_line ex2 (LEdge (default "" p) (connector_of n) node_id)
     else ex2).
Proof.
  destruct n as [i nm d t a cs mit cve fr]. cbn [_export_node node_type children name].
  destruct (assign_id (mkNode i nm d t a cs mit cve fr) ex) as [nid ex1]. reflexivity.
Qed.

Ltac grow_steps :=
  repeat (eapply grows_trans; [|apply grows_append]); apply grows_assign.

Lemma fold_export_grows (cs : list AttackNode) (q : option string) (ex : MermaidExporter) :
  Forall (fun c => forall p ex, grows ex (snd (_export_node c p ex))) cs ->
  grows ex (fold_left (fun e c => snd (_export_node c q e)) cs ex).
Proof.
  intros H. revert ex. induction H as [|c cs Hc _ IH]; intros ex; simpl.
  - apply grows_refl.
  - eapply grows_trans; [apply Hc | apply IH].
Qed.

Lemma export_node_grows (n : AttackNode) (p : option string) (ex : MermaidExporter) :
  grows ex (snd (_export_node n p ex)).
Proof.
  revert p ex. induction n as [i nm d t a cs mit cve fr IH] using AttackNode_rect'.
  intros p ex. rewrite export_node_unfold. cbn [children node_type].
  eapply grows_trans; [|apply fold_export_grows; exact IH].
  cbv zeta. destruct t, (truthy p); grow_steps.
Qed.

Lemma truthy_some (q : string) : q <> "" -> truthy (Some q) = true.
Proof. intros Hq. unfold truthy. destruct (String.eqb_spec q ""); [congruence | reflexivity]. Qed.

Lemma fold_export_counts (cs : list AttackNode) (q : string) (ex : MermaidExporter) :
  q <> "" ->
  Forall (fun c => forall p ex, memo_ok ex -> counts_spec c p ex (snd (_export_node c p ex))) cs ->
  memo_ok ex ->
  let ex' := fold_left (fun e c => snd (_export_node c (Some q) e)) cs ex in
  memo_ok ex' /\
  count_lines is_shape (_lines ex') = count_lines is_shape (_lines ex) + length (flat_map preorder cs) /\
  count_lines is_edge (_lines ex') = count_lines is_edge (_lines ex) + length (flat_map preorder cs).
Proof.
  intros Hq H. revert ex. induction H as [|c cs Hc _ IH]; intros ex Hok; simpl.
  - split; [exact Hok | lia].
  - destruct (Hc (Some q) ex Hok) as (Hok1 & Hs1 & He1).
    rewrite truthy_some in He1 by exact Hq.
    destruct (IH _ Hok1) as (Hok2 & Hs2 & He2).
    split; [exact Hok2|]. rewrite length_app, Hs2, He2, Hs1, He1.
    destruct c as [? ? ? ? ? ccs ? ? ?]. simpl. lia.
Qed.

Lemma export_node_counts (n : AttackNode) (p : option string) (ex : MermaidExporter) :
  memo_ok ex -> counts_spec n p ex (snd (_export_node n p ex)).
Proof.
  revert p ex. induction n as [i nm d t a cs mit cve fr IH] using AttackNode_rect'.
  intros p ex Hok. rewrite export_node_unfold. cbn [children node_type].
  set (n := mkNode i nm d t a cs mit cve fr).
  destruct (assign_id_spec n ex) as (_ & Hl & _ & Hok').
  destruct (Hok' Hok) as [Hok1 Hnid]. clear Hok'.
  set (ex2 := let ex1 := snd (assign_id n ex) in
              let node_id := fst (assign_id n ex) in
              let ex2 := match t with
                         | OR => append_line ex1 (LShape (node_id ++ "(('" ++ name n ++ "')")%string)
                         | AND => append_line ex1 (LShape (node_id ++ "['" ++ name n ++ "']")%string)
                         | LEAF => append_line (append_line ex1 (LStyle node_id (_get_leaf_style n)))
                                     (LShape (node_id ++ "['" ++ name n ++ "']")%string)
                         end in
              if truthy p then append_line ex2 (LEdge (default "" p) (connector_of n) node_id) else ex2).
  assert (Hown : memo_ok ex2 /\
    count_lines is_shape (_lines ex2) = count_lines is_shape (_lines ex) + 1 /\
    count_lines is_edge (_lines ex2) = count_lines is_edge (_lines ex) + (if truthy p then 1 else 0)).
  { subst ex2. cbv zeta.
    destruct t, (truthy p);
      (split; [repeat apply memo_ok_append; exact Hok1|]);
      rewrite ?lines_append, ?count_lines_app, ?lines_append, ?count_lines_app, ?Hl;
      unfold count_lines; cbn [List.filter is_shape is_edge length]; lia. }
  destruct Hown as (Hok2 & Hs2 & He2).
  destruct (fold_export_counts cs (fst (assign_id n ex)) ex2 Hnid IH Hok2) as (Hok3 & Hs3 & He3).
  split; [exact Hok3|]. split.
  - rewrite Hs3, Hs2. simpl. lia.
  - rewrite He3, He2. simpl. lia.
Qed.

Lemma export_node_memo (n : AttackNode) (p : option string) (ex : MermaidExporter) :
  _node_ids (snd (_export_node n p ex)) !! id n = Some (fst (_export_node n p ex)).
Proof.
  rewrite export_node_fst.
  destruct (assign_id_spec n ex) as (Hl & _ & _ & _).
  eapply lookup_weaken; [exact Hl|].
  rewrite export_node_unfold.
  assert (Hg : grows (snd (assign_id n ex))
     (fold_left (fun e c => snd (_export_node c (Some (fst (assign_id n ex))) e))
        (children n)
        (let ex1 := snd (assign_id n ex) in
         let node_id := fst (assign_id n ex) in
         let ex2 :=
           match node_type n with
           | OR => append_line ex1 (LShape (node_id ++ "(('" ++ name n ++ "')")%string)
           | AND => append_line ex1 (LShape (node_id ++ "['" ++ name n ++ "']")%string)
           | LEAF =>
               append_line (append_line ex1 (LStyle node_id (_get_leaf_style n)))
                 (LShape (node_id ++ "['" ++ name n ++ "']")%string)
           end in
         if truthy p
         then append_line ex2 (LEdge (default "" p) (connector_of n) node_id)
         else ex2))).
  { eapply grows_trans; [|apply fold_export_grows, Forall_forall; intros; apply export_node_grows].
    cbv zeta. destruct (node_type n), (truthy p);
      repeat (eapply grows_trans; [|apply grows_append]); apply grows_refl. }
  exact (proj1 Hg).
Qed.

(** ** Mermaid export claims *)

(** C4 (counterexample): for [sample_or_and_tree] the edge from the OR
    root [N0] to its AND child [N1] uses [==>], and the edge from that
    AND node to its LEAF child [N2] uses [-->]: the connector does not
    follow the parent's kind. *)
Lemma export_edge_parent_kind_counterexample :
  node_type (root sample_or_and_tree) = OR /\
  nth_error (_lines (export_state (MermaidExporter_init sample_or_and_tree))) 3
    = Some (LEdge "N0" "==>" "N1") /\
  nth_error (_lines (export_state (MermaidExporter_init sample_or_and_tree))) 6
    = Some (LEdge "N1" "-->" "N2").
Proof. split; [reflexivity|]. split; vm_compute; reflexivity. Qed.

(** C7: in a tree whose ids are unique, the export emits one node
    declaration line per node, as many as there are distinct ids, and
    one edge line per non-root node (node count minus one). *)
Theorem export_line_counts (t : AttackTree) :
  NoDup (map id (preorder (root t))) ->
  count_lines is_shape (_lines (export_state (MermaidExporter_init t)))
    = size (list_to_set (map id (preorder (root t))) : gset string) /\
  count_lines is_shape (_lines (export_state (MermaidExporter_init t)))
    = length (preorder (root t)) /\
  count_lines is_edge (_lines (export_state (MermaidExporter_init t))) + 1
    = length (preorder (root t)).
Proof.
  intros Hnd.
  set (ex0 := set_lines (MermaidExporter_init t) [LText "flowchart TD"]).
  assert (Hok : memo_ok ex0).
  { intros k v Hk. simpl in Hk. rewrite lookup_empty in Hk. discriminate. }
  destruct (export_node_counts (root t) None ex0 Hok) as (_ & Hs & He).
  assert (Hlen : length (preorder (root t)) = S (length (flat_map preorder (children (root t))))).
  { destruct (root t); reflexivity. }
  unfold export_state, _add_legend. cbv zeta. fold ex0. change (tree ex0) with t.
  rewrite !lines_append, !count_lines_app, Hs, He.
  cbn [tree MermaidExporter_init ex0 set_lines _lines].
  rewrite size_list_to_set by exact Hnd. rewrite length_map.
  unfold count_lines; cbn [List.filter is_shape is_edge length truthy]. lia.
Qed.

(** C8: for a LEAF the export emits a style directive for the node's
    identifier; it is the fixed mitigated style when the leaf has
    mitigations, and otherwise the entry of the 5-entry color table at
    the leaf's difficulty level. *)
Theorem leaf_style_directive (n : AttackNode) (p : option string) (ex : MermaidExporter) :
  node_type n = LEAF ->
  length colors = 5 /\
  exists st rest,
    _lines (snd (_export_node n p ex)) =
      _lines ex ++ LStyle (fst (_export_node n p ex)) st :: rest /\
    (mitigations n <> [] -> st = "fill:#d3f9d8,stroke:#51cf66,stroke-width:3px") /\
    (mitigations n = [] ->
       colors !! Z.to_nat (Difficulty_value (difficulty (attributes n)) - 1)
         = Some (difficulty (attributes n), st)).
Proof.
  intros Hleaf. split; [reflexivity|].
  rewrite export_node_unfold, export_node_fst.
  destruct (assign_id_spec n ex) as (_ & Hl & _ & _).
  set (nid := fst (assign_id n ex)).
  set (ex3 := let ex1 := snd (assign_id n ex) in
       let ex2 :=
         match node_type n with
         | OR => append_line ex1 (LShape (nid ++ "(('" ++ name n ++ "')")%string)
         | AND => append_line ex1 (LShape (nid ++ "['" ++ name n ++ "']")%string)
         | LEAF =>
             append_line (append_line ex1 (LStyle nid (_get_leaf_style n)))
               (LShape (nid ++ "['" ++ name n ++ "']")%string)
         end in
       if truthy p
       then append_line ex2 (LEdge (default "" p) (connector_of n) nid)
       else ex2).
  assert (H3 : exists sfx, _lines ex3 = _lines ex ++ LStyle nid (_get_leaf_style n) :: sfx).
  { subst ex3. cbv zeta. rewrite Hleaf.
    destruct (truthy p); rewrite ?lines_append, ?Hl; simpl; rewrite <- ?app_assoc; eexists; reflexivity. }
  destruct H3 as [sfx H3].
  destruct (fold_export_grows (children n) (Some nid) ex3
              (proj2 (Forall_forall _ _) (fun c _ => export_node_grows c)))
    as [_ [rest Hrest]].
  exists (_get_leaf_style n), (sfx ++ rest).
  split; [fold ex3; rewrite Hrest, H3, <- app_assoc; reflexivity|].
  unfold _get_leaf_style. split.
  - intros Hm. destruct (mitigations n); [congruence | reflexivity].
  - intros Hm. rewrite Hm. destruct (difficulty (attributes n)); reflexivity.
Qed.

(* ================================================================== *)
(** * Witnesses *)

Lemma find_path_or_best_witness :
  node_type sample_or = OR /\ children sample_or <> [] /\
  exists i c, children sample_or !! i = Some c /\
    _find_path sample_or "difficulty" = sample_or :: _find_path c "difficulty" /\
    _path_score (_find_path sample_or "difficulty") "difficulty"
      = _path_score (_find_path c "difficulty") "difficulty" /\
    forall j c', children sample_or !! j = Some c' ->
      (_path_score (_find_path c "difficulty") "difficulty"
         <= _path_score (_find_path c' "difficulty") "difficulty")%Z /\
      (j < i -> (_path_score (_find_path c "difficulty") "difficulty"
                   < _path_score (_find_path c' "difficulty") "difficulty")%Z).
Proof.
  split; [reflexivity|]. split; [discriminate|].
  apply find_path_or_best; [reflexivity | discriminate].
Defined.

Lemma find_path_and_concat_witness :
  node_type sample_and = AND /\ children sample_and <> [] /\
  _find_path sample_and "cost"
    = sample_and :: concat (map (fun c => _find_path c "cost") (children sample_and)) /\
  _path_score (_find_path sample_and "cost") "cost" =
    fold_right Z.add 0%Z (map (fun c => _path_score (_find_path c "cost") "cost") (children sample_and)).
Proof.
  split; [reflexivity|]. split; [discriminate|].
  apply find_path_and_concat; [reflexivity | discriminate].
Defined.

Lemma find_path_single_witness :
  (node_type (sample_leaf "A" D_TRIVIAL C_LOW []) = LEAF \/ children (sample_leaf "A" D_TRIVIAL C_LOW []) = []) /\
  _find_path (sample_leaf "A" D_TRIVIAL C_LOW []) "cost" = [sample_leaf "A" D_TRIVIAL C_LOW []] /\
  (node_type (sample_leaf "A" D_TRIVIAL C_LOW []) = LEAF ->
     _path_score (_find_path (sample_leaf "A" D_TRIVIAL C_LOW []) "difficulty") "difficulty"
       = Difficulty_value (difficulty (attributes (sample_leaf "A" D_TRIVIAL C_LOW []))) /\
     _path_score (_find_path (sample_leaf "A" D_TRIVIAL C_LOW []) "cost") "cost"
       = Cost_value (cost (attributes (sample_leaf "A" D_TRIVIAL C_LOW []))) /\
     _path_score (_find_path (sample_leaf "A" D_TRIVIAL C_LOW []) "detection") "detection"
       = DetectionRisk_value (detection_risk (attributes (sample_leaf "A" D_TRIVIAL C_LOW [])))) /\
  (node_type (sample_leaf "A" D_TRIVIAL C_LOW []) <> LEAF ->
     _path_score (_find_path (sample_leaf "A" D_TRIVIAL C_LOW []) "cost") "cost" = 0%Z).
Proof.
  split; [left; reflexivity|]. apply find_path_single. left; reflexivity.
Defined.

Lemma export_line_counts_witness :
  NoDup (map id (preorder (root sample_or_and_tree))) /\
  count_lines is_shape (_lines (export_state (MermaidExporter_init sample_or_and_tree)))
    = size (list_to_set (map id (preorder (root sample_or_and_tree))) : gset string) /\
  count_lines is_shape (_lines (export_state (MermaidExporter_init sample_or_and_tree)))
    = length (preorder (root sample_or_and_tree)) /\
  count_lines is_edge (_lines (export_state (MermaidExporter_init sample_or_and_tree))) + 1
    = length (preorder (root sample_or_and_tree)).
Proof.
  assert (H : NoDup (map id (preorder (root sample_or_and_tree)))).
  { simpl. repeat constructor; set_solver. }
  split; [exact H|]. apply export_line_counts. exact H.
Defined.

Lemma leaf_style_directive_witness :
  node_type (sample_leaf "B" D_EXPERT C_HIGH ["csp"]) = LEAF /\
  length colors = 5 /\
  exists st rest,
    _lines (snd (_export_node (sample_leaf "B" D_EXPERT C_HIGH ["csp"]) (Some "N1")
                   (MermaidExporter_init sample_or_and_tree))) =
      _lines (MermaidExporter_init sample_or_and_tree)
        ++ LStyle (fst (_export_node (sample_leaf "B" D_EXPERT C_HIGH ["csp"]) (Some "N1")
                          (MermaidExporter_init sample_or_and_tree))) st :: rest /\
    (mitigations (sample_leaf "B" D_EXPERT C_HIGH ["csp"]) <> [] ->
       st = "fill:#d3f9d8,stroke:#51cf66,stroke-width:3px") /\
    (mitigations (sample_leaf "B" D_EXPERT C_HIGH ["csp"]) = [] ->
       colors !! Z.to_nat (Difficulty_value (difficulty (attributes (sample_leaf "B" D_EXPERT C_HIGH ["csp"]))) - 1)
         = Some (difficulty (attributes (sample_leaf "B" D_EXPERT C_HIGH ["csp"])), st)).
Proof.
  split; [reflexivity|]. apply leaf_style_directive. reflexivity.
Defined.

Lemma or_best_path_some_witness :
  node_type sample_or = OR /\ children sample_or <> [] /\
  (exists p, fst (or_loop (fun c => _find_path c "cost") "cost" (children sample_or) None Inf) = Some p /\ p <> []) /\
  2 <= length (_find_path sample_or "cost").
Proof.
  split; [reflexivity|]. split; [discriminate|].
  apply or_best_path_some; [reflexivity | discriminate].
Defined.

(* ================================================================== *)
(** * Further properties of the code *)

(** ** Helpers *)

Lemma find_path_or_choice (n : AttackNode) (m : string) :
  node_type n = OR -> children n <> [] ->
  exists i c, children n !! i = Some c /\
    _find_path n m = n :: _find_path c m /\
    forall j c', children n !! j = Some c' ->
      (_path_score (_find_path c m) m <= _path_score (_find_path c' m) m)%Z.
Proof.
  intros Hor Hne. rewrite (find_path_eq n m), Hor. cbn [NodeType_eqb].
  destruct (children n) as [|c0 cs] eqn:Hch; [congruence|].
  destruct (or_loop_spec (fun c => _find_path c m) m (c0 :: cs) None Inf)
    as [[_ Hall] | (i & c & Hi & Heq & _ & Hord)].
  - inversion Hall as [|? ? Hc0]; simpl in Hc0; discriminate.
  - rewrite Heq. exists i, c. split; [exact Hi|]. split; [reflexivity|].
    intros j c' Hj. specialize (Hord j c' Hj). simpl in Hord.
    destruct (Nat.lt_trichotomy j i) as [Hlt|[->|Hgt]].
    + apply Z.lt_le_incl, Hord, Hlt.
    + rewrite Hi in Hj. injection Hj as <-. lia.
    + apply Hord, Hgt.
Qed.

Lemma find_path_and_eq (n : AttackNode) (m : string) :
  node_type n = AND -> children n <> [] ->
  _find_path n m = n :: concat (map (fun c => _find_path c m) (children n)).
Proof.
  intros Hand Hne. rewrite (find_path_eq n m), Hand. cbn [NodeType_eqb].
  destruct (children n) as [|c0 cs]; [congruence|].
  rewrite fold_left_extend. reflexivity.
Qed.

Lemma find_path_leafish (n : AttackNode) (m : string) :
  node_type n = LEAF \/ children n = [] -> _find_path n m = [n].
Proof.
  intros H. rewrite (find_path_eq n m).
  destruct H as [Hl | Hc]; [rewrite Hl; reflexivity|].
  rewrite Hc. destruct (NodeType_eqb (node_type n) LEAF); reflexivity.
Qed.

Lemma preorder_sublist_flat_map (c : AttackNode) (cs : list AttackNode) :
  In c cs -> preorder c `sublist_of` flat_map preorder cs.
Proof.
  intros Hin. apply in_split in Hin as (l1 & l2 & ->).
  rewrite flat_map_app. simpl.
  apply sublist_inserts_l, sublist_inserts_r. reflexivity.
Qed.

Lemma path_score_concat_lists (ps : list (list AttackNode)) (m : string) :
  _path_score (concat ps) m = fold_right Z.add 0%Z (map (fun p => _path_score p m) ps).
Proof.
  induction ps as [|p ps IH]; simpl.
  { unfold _path_score, sum_leaves; simpl.
    destruct (String.eqb m "difficulty"); [lia|].
    destruct (String.eqb m "cost"); [lia|].
    destruct (String.eqb m "detection"); lia. }
  rewrite path_score_app, IH. reflexivity.
Qed.

Lemma node_nonleaf (n : AttackNode) : node_type n <> LEAF -> is_leaf n = false.
Proof. unfold is_leaf. destruct (node_type n); simpl; congruence. Qed.

(** ** Path search *)

(** X1: [_find_path] only ever returns nodes of the subtree searched, in
    the order of a pre-order walk of that subtree. *)
Theorem find_path_sublist_preorder (n : AttackNode) (m : string) :
  _find_path n m `sublist_of` preorder n.
Proof.
  induction n as [i nm d t a cs mit cve fr IH] using AttackNode_rect'.
  assert (Hbase : [mkNode i nm d t a cs mit cve fr] `sublist_of` preorder (mkNode i nm d t a cs mit cve fr)).
  { apply sublist_skip, sublist_nil_l. }
  assert (Hl : t = LEAF \/ cs = [] \/ (t <> LEAF /\ cs <> [])).
  { destruct t; [| |tauto]; (destruct cs; [tauto | right; right; split; discriminate]). }
  destruct Hl as [Hl|[Hl|[Ht Hne]]].
  { rewrite find_path_leafish by (left; exact Hl). exact Hbase. }
  { rewrite find_path_leafish by (right; exact Hl). exact Hbase. }
  destruct t; [| |congruence].
  - destruct (find_path_or_choice (mkNode i nm d OR a cs mit cve fr) m eq_refl Hne)
      as (j & c & Hj & -> & _).
    apply sublist_skip. simpl in Hj.
    pose proof (list_elem_of_lookup_2 _ _ _ Hj) as Hc.
    apply list_elem_of_In in Hc.
    rewrite Forall_forall in IH.
    transitivity (preorder c); [apply IH; apply list_elem_of_In; exact Hc|].
    apply preorder_sublist_flat_map, Hc.
  - rewrite find_path_and_eq by (reflexivity || exact Hne).
    apply sublist_skip. simpl. clear Hbase Hne Ht.
    induction IH as [|c cs Hc _ IHcs]; simpl; [reflexivity|].
    apply sublist_app; [exact Hc | exact IHcs].
Qed.

Lemma sum_scores_le (m : string) (cs : list AttackNode) (ps : list (list AttackNode)) :
  Forall (fun c => forall p, solution c p -> (_path_score (_find_path c m) m <= _path_score p m)%Z) cs ->
  Forall2 solution cs ps ->
  (fold_right Z.add 0%Z (map (fun c => _path_score (_find_path c m) m) cs)
   <= fold_right Z.add 0%Z (map (fun p => _path_score p m) ps))%Z.
Proof.
  intros H H2. induction H2 as [|c p cs ps Hcp _ IH]; simpl; [lia|].
  inversion H as [|? ? Hc Hcs]; subst.
  specialize (Hc p Hcp). specialize (IH Hcs). lia.
Qed.

(** X2: [_find_path] is an optimal search: its result is an attack path of
    the tree (one child's path at an OR node, every child's path at an
    AND node) and no attack path has a smaller score for the metric. *)
Theorem find_path_optimal (n : AttackNode) (m : string) :
  solution n (_find_path n m) /\
  forall p, solution n p -> (_path_score (_find_path n m) m <= _path_score p m)%Z.
Proof.
  induction n as [i nm d t a cs mit cve fr IH] using AttackNode_rect'.
  assert (Hl : t = LEAF \/ cs = [] \/ (t <> LEAF /\ cs <> [])).
  { destruct t; [| |tauto]; (destruct cs; [tauto | right; right; split; discriminate]). }
  destruct Hl as [Hl|[Hl|[Ht Hne]]].
  - subst t. rewrite find_path_leafish by (left; reflexivity).
    split; [apply sol_leaf; reflexivity|].
    intros p Hp. inversion Hp; subst; simpl in *; try discriminate; lia.
  - subst cs. rewrite find_path_leafish by (right; reflexivity).
    split; [apply sol_empty; reflexivity|].
    intros p Hp. inversion Hp; subst; simpl in *; try congruence; lia.
  - destruct t; [| |congruence].
    + destruct (find_path_or_choice (mkNode i nm d OR a cs mit cve fr) m eq_refl Hne)
        as (j & c & Hj & Hfp & Hmin).
      simpl in Hj, Hmin. rewrite Forall_forall in IH.
      assert (Hc : In c cs) by (apply list_elem_of_In; exact (list_elem_of_lookup_2 _ _ _ Hj)).
      rewrite Hfp. split.
      { eapply sol_or; [reflexivity | exact Hne | exact Hc |].
        apply (IH c (proj2 (list_elem_of_In _ _) Hc)). }
      intros p Hp. inversion Hp as [? Hty | ? Hch | ? c' p' _ _ Hin Hsol | ? ps Hty]; subst;
        simpl in *; try discriminate; try congruence.
      rewrite !path_score_cons_nonleaf by reflexivity.
      apply list_elem_of_In in Hin as Hin'.
      destruct (list_elem_of_lookup_1 _ _ Hin') as [k Hk].
      specialize (Hmin k c' Hk).
      pose proof (proj2 (IH c' Hin') p' Hsol). lia.
    + rewrite find_path_and_eq by (reflexivity || exact Hne). simpl. split.
      { apply sol_and; [reflexivity | exact Hne|]. simpl.
        clear Hne Ht. induction IH as [|c cs Hc _ IHcs]; simpl; constructor;
          [apply Hc | exact IHcs]. }
      intros p Hp. inversion Hp as [? Hty | ? Hch | ? c' p' Hty | ? ps _ _ H2]; subst;
        simpl in *; try discriminate; try congruence.
      rewrite !path_score_cons_nonleaf by reflexivity.
      rewrite path_score_concat, path_score_concat_lists.
      apply sum_scores_le; [|exact H2].
      eapply Forall_impl; [exact IH|]. intros x Hx. apply Hx.
Qed.

Lemma or_loop_all_zero (fp : AttackNode -> list AttackNode) (m : string)
    (cs : list AttackNode) (bp : list AttackNode) :
  (forall p, _path_score p m = 0%Z) ->
  or_loop fp m cs (Some bp) (Fin 0) = (Some bp, Fin 0).
Proof.
  intros H0. induction cs as [|c cs IH]; cbn [or_loop]; [reflexivity|].
  rewrite H0. exact IH.
Qed.

(** X3: A metric string other than ["difficulty"], ["cost"] and ["detection"]
    scores every path 0, so an OR node then always follows its first
    child. *)
Theorem find_path_unknown_metric (n : AttackNode) (m : string) :
  m <> "difficulty" -> m <> "cost" -> m <> "detection" ->
  (forall p, _path_score p m = 0%Z) /\
  (forall c cs, node_type n = OR -> children n = c :: cs ->
     _find_path n m = n :: _find_path c m).
Proof.
  intros H1 H2 H3.
  assert (H0 : forall p, _path_score p m = 0%Z).
  { intros p. unfold _path_score.
    apply String.eqb_neq in H1, H2, H3. rewrite H1, H2, H3. reflexivity. }
  split; [exact H0|]. intros c cs Hor Hch.
  rewrite (find_path_eq n m), Hor, Hch. cbn [NodeType_eqb or_loop].
  rewrite H0. cbn [score_lt]. rewrite or_loop_all_zero by exact H0. reflexivity.
Qed.

(** X4: Bounds on a path's score: with d leaves in the path, the difficulty
    score lies in [d, 5d], the cost and detection scores in [0, 4d], and
    no metric gives a negative score. *)
Theorem path_score_bounds (p : list AttackNode) :
  let d := Z.of_nat (length (List.filter is_leaf p)) in
  (d <= _path_score p "difficulty" <= 5 * d)%Z /\
  (0 <= _path_score p "cost" <= 4 * d)%Z /\
  (0 <= _path_score p "detection" <= 4 * d)%Z /\
  (forall m, 0 <= _path_score p m)%Z.
Proof.
  assert (Hd : forall p, (Z.of_nat (length (List.filter is_leaf p)) <= _path_score p "difficulty"
                           <= 5 * Z.of_nat (length (List.filter is_leaf p)))%Z).
  { intros q. change (_path_score q "difficulty") with (sum_leaves (fun a => Difficulty_value (difficulty a)) q).
    induction q as [|x q IH]; [unfold sum_leaves; simpl; lia|].
    rewrite sum_leaves_cons. cbn [List.filter]. destruct (is_leaf x); cbn [length];
      [destruct (difficulty (attributes x)); simpl; lia | lia]. }
  assert (Hc : forall p, (0 <= _path_score p "cost" <= 4 * Z.of_nat (length (List.filter is_leaf p)))%Z).
  { intros q. change (_path_score q "cost") with (sum_leaves (fun a => Cost_value (cost a)) q).
    induction q as [|x q IH]; [unfold sum_leaves; simpl; lia|].
    rewrite sum_leaves_cons. cbn [List.filter]. destruct (is_leaf x); cbn [length];
      [destruct (cost (attributes x)); simpl; lia | lia]. }
  assert (Hr : forall p, (0 <= _path_score p "detection" <= 4 * Z.of_nat (length (List.filter is_leaf p)))%Z).
  { intros q. change (_path_score q "detection") with (sum_leaves (fun a => DetectionRisk_value (detection_risk a)) q).
    induction q as [|x q IH]; [unfold sum_leaves; simpl; lia|].
    rewrite sum_leaves_cons. cbn [List.filter]. destruct (is_leaf x); cbn [length];
      [destruct (detection_risk (attributes x)); simpl; lia | lia]. }
  intros d. split; [apply Hd|]. split; [apply Hc|]. split; [apply Hr|].
  intros m. specialize (Hd p). specialize (Hc p). specialize (Hr p).
  change (_path_score p "difficulty") with (sum_leaves (fun a => Difficulty_value (difficulty a)) p) in Hd.
  change (_path_score p "cost") with (sum_leaves (fun a => Cost_value (cost a)) p) in Hc.
  change (_path_score p "detection") with (sum_leaves (fun a => DetectionRisk_value (detection_risk a)) p) in Hr.
  unfold _path_score.
  destruct (String.eqb m "difficulty"); [lia|].
  destruct (String.eqb m "cost"); [lia|].
  destruct (String.eqb m "detection"); lia.
Qed.

(** X5: Without OR choices (every node is AND or has no children) the path
    found is the whole subtree in pre-order, for any metric. *)
Theorem find_path_no_or (n : AttackNode) (m : string) :
  Forall (fun x => node_type x = AND \/ children x = []) (preorder n) ->
  _find_path n m = preorder n.
Proof.
  induction n as [i nm d t a cs mit cve fr IH] using AttackNode_rect'.
  intros Hall. inversion Hall as [|? ? Hroot Hrest]; subst. simpl in Hroot.
  destruct cs as [|c0 cs0].
  { rewrite find_path_leafish by (right; reflexivity). reflexivity. }
  destruct Hroot as [Hand|Hc]; [|discriminate].
  rewrite find_path_and_eq by (exact Hand || discriminate). cbn [preorder children].
  f_equal. clear Hall Hand. revert Hrest.
  induction IH as [|c cs Hc _ IHcs]; intros Hrest; simpl; [reflexivity|].
  simpl in Hrest. apply Forall_app in Hrest as [H1 H2].
  rewrite (Hc H1), (IHcs H2). reflexivity.
Qed.

(** ** [add_child] composed with the search and the leaf enumeration *)

Lemma children_add_child (n c : AttackNode) : children (add_child n c) = children n ++ [c].
Proof. reflexivity. Qed.

Lemma preorder_add_child (n c : AttackNode) :
  preorder (add_child n c) = add_child n c :: flat_map preorder (children n) ++ preorder c.
Proof.
  destruct n as [i nm d t a cs mit cve fr]. unfold add_child. simpl.
  rewrite flat_map_app. simpl. rewrite app_nil_r. reflexivity.
Qed.

(** X6: Adding a child to an AND node appends that child's best path to the
    node's path (also when the node had no children yet); the path now
    starts with the updated node. *)
Theorem add_child_and_path (n c : AttackNode) (m : string) :
  node_type n = AND ->
  _find_path (add_child n c) m = add_child n c :: tl (_find_path n m) ++ _find_path c m.
Proof.
  intros Hand. rewrite (find_path_eq (add_child n c) m), (find_path_eq n m).
  cbn [add_child node_type]. rewrite Hand. cbn [NodeType_eqb].
  rewrite ?children_add_child.
  destruct (children n) as [|c0 cs] eqn:Hch; rewrite ?Hch; simpl.
  - reflexivity.
  - rewrite !fold_left_extend, map_app, concat_app. simpl. rewrite app_nil_r, app_assoc. reflexivity.
Qed.

(** X7: For a node that is not a LEAF, adding a child appends the child's
    leaves to the node's leaf list, and the child's subtree to the
    node's pre-order walk (after the updated node itself). *)
Theorem add_child_leaves (n c : AttackNode) :
  node_type n <> LEAF ->
  _collect_leaves (add_child n c) [] = _collect_leaves n [] ++ _collect_leaves c [] /\
  preorder (add_child n c) = add_child n c :: tl (preorder n) ++ preorder c.
Proof.
  intros Hnl. rewrite !collect_leaves_preorder, preorder_add_child. simpl.
  split; [|destruct n; reflexivity].
  destruct n as [i nm d t a cs mit cve fr]. cbn [preorder children List.filter].
  unfold is_leaf at 1 3. cbn [add_child node_type]. simpl in Hnl.
  destruct t; [| |congruence]; simpl; apply List.filter_app.
Qed.

Lemma or_loop_app (fp : AttackNode -> list AttackNode) (m : string)
    (l1 l2 : list AttackNode) (bp : option (list AttackNode)) (bs : score) :
  or_loop fp m (l1 ++ l2) bp bs =
  let (bp', bs') := or_loop fp m l1 bp bs in or_loop fp m l2 bp' bs'.
Proof.
  revert bp bs. induction l1 as [|x l1 IH]; intros bp bs; cbn [or_loop app]; [reflexivity|].
  destruct (score_lt _ _); apply IH.
Qed.

(** X8: Adding a child to an OR node that already has children: the new
    child's path is taken only when its score is strictly smaller than
    that of the current best path; otherwise the path stays the same
    (after the updated node itself). *)
Theorem add_child_or_path (n c : AttackNode) (m : string) :
  node_type n = OR -> children n <> [] ->
  _find_path (add_child n c) m =
    if (_path_score (_find_path c m) m <? _path_score (_find_path n m) m)%Z
    then add_child n c :: _find_path c m
    else add_child n c :: tl (_find_path n m).
Proof.
  intros Hor Hne.
  rewrite (find_path_eq (add_child n c) m), (find_path_eq n m).
  cbn [add_child node_type]. rewrite Hor. cbn [NodeType_eqb].
  rewrite ?children_add_child.
  destruct (children n) as [|c0 cs0] eqn:Hch; [congruence|].
  cbn [app]. change (c0 :: cs0 ++ [c]) with ((c0 :: cs0) ++ [c]).
  rewrite or_loop_app.
  destruct (or_loop_spec (fun x => _find_path x m) m (c0 :: cs0) None Inf)
    as [[_ Hall] | (i & b & _ & Heq & _ & _)].
  - inversion Hall as [|? ? Hc0]; simpl in Hc0; discriminate.
  - rewrite Heq. cbn [or_loop score_lt or_empty app tl].
    rewrite path_score_cons_nonleaf by (unfold is_leaf; rewrite Hor; reflexivity).
    destruct (_path_score (_find_path c m) m <? _path_score (_find_path b m) m)%Z; reflexivity.
Qed.

(** ** The exporter's memo and counter *)

Lemma export_node_step (n : AttackNode) (p : option string) (ex : MermaidExporter) :
  snd (_export_node n p ex) =
  fold_left (fun e c => snd (_export_node c (Some (fst (assign_id n ex))) e)) (children n)
    (mkExporter (tree ex) (_lines ex ++ own_emit n p (fst (assign_id n ex)))
       (_node_count (snd (assign_id n ex))) (_node_ids (snd (assign_id n ex)))).
Proof.
  rewrite export_node_unfold. f_equal.
  unfold assign_id, own_emit. destruct (_node_ids ex !! id n); simpl;
    destruct (node_type n), (truthy p); unfold append_line, set_lines; simpl;
    rewrite <- ?app_assoc; reflexivity.
Qed.

Lemma fold_meta (P : MermaidExporter -> MermaidExporter -> Prop) (cs : list AttackNode)
    (q : option string) (ex : MermaidExporter) :
  (forall e, P e e) -> (forall a b c, P a b -> P b c -> P a c) ->
  Forall (fun c => forall p e, P e (snd (_export_node c p e))) cs ->
  P ex (fold_left (fun e c => snd (_export_node c q e)) cs ex).
Proof.
  intros Hr Ht H. revert ex. induction H as [|c cs Hc _ IH]; intros ex; simpl; [apply Hr|].
  eapply Ht; [apply Hc | apply IH].
Qed.

Lemma export_node_tree (n : AttackNode) (p : option string) (ex : MermaidExporter) :
  tree (snd (_export_node n p ex)) = tree ex.
Proof.
  revert p ex. induction n as [i nm d t a cs mit cve fr IH] using AttackNode_rect'.
  intros p ex. rewrite export_node_step. cbn [children].
  pose proof (fold_meta (fun e e' => tree e' = tree e) cs
    (Some (fst (assign_id (mkNode i nm d t a cs mit cve fr) ex)))
    (mkExporter (tree ex) (_lines ex ++ own_emit (mkNode i nm d t a cs mit cve fr) p
        (fst (assign_id (mkNode i nm d t a cs mit cve fr) ex)))
      (_node_count (snd (assign_id (mkNode i nm d t a cs mit cve fr) ex)))
      (_node_ids (snd (assign_id (mkNode i nm d t a cs mit cve fr) ex)))))
    as H.
  simpl in H. apply H; [reflexivity | intros; congruence | exact IH].
Qed.

(** The counter equals the number of keys in the memo, and the memo's
    keys grow by exactly the ids of the exported subtree. *)
Lemma export_node_dom (n : AttackNode) (p : option string) (ex : MermaidExporter) :
  _node_count ex = size (_node_ids ex) ->
  _node_count (snd (_export_node n p ex)) = size (_node_ids (snd (_export_node n p ex))) /\
  dom (_node_ids (snd (_export_node n p ex))) =
    dom (_node_ids ex) ∪ list_to_set (map id (preorder n)).
Proof.
  revert p ex. induction n as [i nm d t a cs mit cve fr IH] using AttackNode_rect'.
  intros p ex Hsz. rewrite export_node_step. cbn [children].
  set (n := mkNode i nm d t a cs mit cve fr).
  set (ex1 := mkExporter (tree ex) (_lines ex ++ own_emit n p (fst (assign_id n ex)))
      (_node_count (snd (assign_id n ex))) (_node_ids (snd (assign_id n ex)))).
  assert (H1 : _node_count ex1 = size (_node_ids ex1) /\
               dom (_node_ids ex1) = dom (_node_ids ex) ∪ {[id n]}).
  { subst ex1. simpl. unfold assign_id. destruct (_node_ids ex !! id n) eqn:Hl; simpl.
    - split; [exact Hsz|]. apply elem_of_dom_2 in Hl. set_solver.
    - rewrite map_size_insert_None by exact Hl. rewrite dom_insert_L.
      split; [lia | set_solver]. }
  clearbody ex1. destruct H1 as [Hsz1 Hdom1].
  assert (Hf : forall l e, Forall (fun c => forall p ex, _node_count ex = size (_node_ids ex) ->
                 _node_count (snd (_export_node c p ex)) = size (_node_ids (snd (_export_node c p ex))) /\
                 dom (_node_ids (snd (_export_node c p ex))) =
                   dom (_node_ids ex) ∪ list_to_set (map id (preorder c))) l ->
               _node_count e = size (_node_ids e) ->
               let e' := fold_left (fun e c => snd (_export_node c (Some (fst (assign_id n ex))) e)) l e in
               _node_count e' = size (_node_ids e') /\
               dom (_node_ids e') = dom (_node_ids e) ∪ list_to_set (map id (flat_map preorder l))).
  { intros l. induction l as [|c l IHl]; intros e Hl He; simpl.
    - split; [exact He | set_solver].
    - inversion Hl as [|? ? Hc Hrest]; subst.
      destruct (Hc (Some (fst (assign_id n ex))) e He) as [He1 Hd1].
      destruct (IHl _ Hrest He1) as [He2 Hd2].
      split; [exact He2|]. rewrite Hd2, Hd1, map_app, list_to_set_app_L. set_solver. }
  destruct (Hf cs ex1 IH Hsz1) as [Hs Hd].
  split; [exact Hs|]. rewrite Hd, Hdom1. simpl. set_solver.
Qed.

Lemma assign_inj (n : AttackNode) (ex : MermaidExporter) :
  memo_inj ex -> memo_inj (snd (assign_id n ex)).
Proof.
  intros [Hi Hj]. unfold assign_id. destruct (_node_ids ex !! id n) eqn:Hl; [split; assumption|].
  unfold memo_inj; simpl. split.
  - intros k1 k2 v H1 H2. apply lookup_insert_Some in H1, H2.
    destruct H1 as [[E1 V1]|[Hne1 H1]], H2 as [[E2 V2]|[Hne2 H2]].
    + congruence.
    + subst. destruct (Hj _ _ H2) as (j & Hjl & E). simpl in E. injection E as E.
      apply pretty_nat_inj in E. lia.
    + subst. destruct (Hj _ _ H1) as (j & Hjl & E). simpl in E. injection E as E.
      apply pretty_nat_inj in E. lia.
    + exact (Hi _ _ _ H1 H2).
  - intros k v H1. apply lookup_insert_Some in H1.
    destruct H1 as [[_ <-]|[_ H1]]; [exists (_node_count ex); split; [lia | reflexivity]|].
    destruct (Hj _ _ H1) as (j & Hjl & E). exists j. split; [lia | exact E].
Qed.

Lemma export_node_inj (n : AttackNode) (p : option string) (ex : MermaidExporter) :
  memo_inj ex -> memo_inj (snd (_export_node n p ex)).
Proof.
  revert p ex. induction n as [i nm d t a cs mit cve fr IH] using AttackNode_rect'.
  intros p ex H. rewrite export_node_step. cbn [children].
  set (n := mkNode i nm d t a cs mit cve fr).
  pose proof (assign_inj n ex H) as H1.
  set (ex1 := mkExporter (tree ex) (_lines ex ++ own_emit n p (fst (assign_id n ex)))
      (_node_count (snd (assign_id n ex))) (_node_ids (snd (assign_id n ex)))).
  assert (H1' : memo_inj ex1) by exact H1.
  clearbody ex1. clear H1.
  pose proof (fold_meta (fun e e' => memo_inj e -> memo_inj e') cs (Some (fst (assign_id n ex))) ex1) as Hf.
  apply Hf; [auto | auto | | exact H1'].
  eapply Forall_impl; [exact IH|]. intros c Hc p' e. apply Hc.
Qed.

Lemma export_node_covers (n : AttackNode) (p : option string) (ex : MermaidExporter) (x : AttackNode) :
  In x (preorder n) -> is_Some (_node_ids (snd (_export_node n p ex)) !! id x).
Proof.
  revert p ex. induction n as [i nm d t a cs mit cve fr IH] using AttackNode_rect'.
  intros p ex Hx. cbn [preorder children] in Hx. destruct Hx as [<- | Hx].
  { rewrite export_node_memo. eauto. }
  rewrite export_node_step. cbn [children].
  generalize (mkExporter (tree ex)
      (_lines ex ++ own_emit (mkNode i nm d t a cs mit cve fr) p (fst (assign_id (mkNode i nm d t a cs mit cve fr) ex)))
      (_node_count (snd (assign_id (mkNode i nm d t a cs mit cve fr) ex)))
      (_node_ids (snd (assign_id (mkNode i nm d t a cs mit cve fr) ex)))).
  generalize (Some (fst (assign_id (mkNode i nm d t a cs mit cve fr) ex))) as q.
  clear ex. induction IH as [|c cs Hc _ IHl]; intros q e; simpl in Hx |- *; [contradiction|].
  apply in_app_or in Hx as [Hx | Hx]; [|apply IHl; exact Hx].
  destruct (Hc q e Hx) as [v Hv].
  destruct (fold_export_grows cs q (snd (_export_node c q e))) as [Hsub _].
  { apply Forall_forall. intros c' _ p' e'. apply export_node_grows. }
  exists v. eapply lookup_weaken; [exact Hv | exact Hsub].
Qed.

Lemma fold_export_covers (cs : list AttackNode) (q : option string) (e : MermaidExporter) (x : AttackNode) :
  In x (flat_map preorder cs) ->
  is_Some (_node_ids (fold_left (fun e c => snd (_export_node c q e)) cs e) !! id x).
Proof.
  revert e. induction cs as [|c cs IHl]; intros e Hx; simpl in Hx |- *; [contradiction|].
  apply in_app_or in Hx as [Hx | Hx]; [|apply IHl; exact Hx].
  destruct (export_node_covers c q e x Hx) as [v Hv].
  destruct (fold_export_grows cs q (snd (_export_node c q e))) as [Hsub _].
  { apply Forall_forall. intros c' _ p' e'. apply export_node_grows. }
  exists v. eapply lookup_weaken; [exact Hv | exact Hsub].
Qed.

(** Re-running [_export_node] on a subtree whose ids are already in the
    memo allocates nothing and appends the same lines as the first run. *)
Lemma export_node_rerun (n : AttackNode) (p : option string) (ex1 ex2 : MermaidExporter) :
  (forall x, In x (preorder n) ->
     _node_ids ex2 !! id x = _node_ids (snd (_export_node n p ex1)) !! id x) ->
  fst (_export_node n p ex2) = fst (_export_node n p ex1) /\
  _node_ids (snd (_export_node n p ex2)) = _node_ids ex2 /\
  _node_count (snd (_export_node n p ex2)) = _node_count ex2 /\
  exists suf, _lines (snd (_export_node n p ex1)) = _lines ex1 ++ suf /\
              _lines (snd (_export_node n p ex2)) = _lines ex2 ++ suf.
Proof.
  revert p ex1 ex2. induction n as [i nm d t a cs mit cve fr IH] using AttackNode_rect'.
  intros p ex1 ex2 H.
  set (n := mkNode i nm d t a cs mit cve fr) in *.
  assert (Hn : _node_ids ex2 !! id n = Some (fst (assign_id n ex1))).
  { rewrite (H n (or_introl eq_refl)), export_node_memo, export_node_fst. reflexivity. }
  assert (Ha : assign_id n ex2 = (fst (assign_id n ex1), ex2)).
  { unfold assign_id at 1. rewrite Hn. reflexivity. }
  rewrite !export_node_fst, Ha. split; [reflexivity|].
  rewrite export_node_step in H. rewrite !export_node_step, Ha. cbn [fst snd].
  assert (Hx : forall x, In x (flat_map preorder cs) -> _node_ids ex2 !! id x =
     _node_ids (fold_left (fun e c => snd (_export_node c (Some (fst (assign_id n ex1))) e)) cs
       (mkExporter (tree ex1) (_lines ex1 ++ own_emit n p (fst (assign_id n ex1)))
          (_node_count (snd (assign_id n ex1))) (_node_ids (snd (assign_id n ex1))))) !! id x).
  { intros x Hx. apply H. right. exact Hx. }
  clear H Ha Hn. subst n. cbn [children].
  assert (Hcode : _lines ex2 ++ own_emit (mkNode i nm d t a cs mit cve fr) p
                    (fst (assign_id (mkNode i nm d t a cs mit cve fr) ex1)) =
                  _lines (mkExporter (tree ex2) (_lines ex2 ++ own_emit (mkNode i nm d t a cs mit cve fr) p
                    (fst (assign_id (mkNode i nm d t a cs mit cve fr) ex1))) (_node_count ex2) (_node_ids ex2)))
    by reflexivity.
  set (own := own_emit (mkNode i nm d t a cs mit cve fr) p (fst (assign_id (mkNode i nm d t a cs mit cve fr) ex1))) in *.
  set (q := Some (fst (assign_id (mkNode i nm d t a cs mit cve fr) ex1))) in *.
  set (E1 := mkExporter (tree ex1) (_lines ex1 ++ own)
          (_node_count (snd (assign_id (mkNode i nm d t a cs mit cve fr) ex1)))
          (_node_ids (snd (assign_id (mkNode i nm d t a cs mit cve fr) ex1)))) in *.
  set (E2 := mkExporter (tree ex2) (_lines ex2 ++ own) (_node_count ex2) (_node_ids ex2)).
  assert (HE1 : _lines E1 = _lines ex1 ++ own) by reflexivity.
  assert (HE2 : _lines E2 = _lines ex2 ++ own /\ _node_ids E2 = _node_ids ex2 /\
                _node_count E2 = _node_count ex2) by (repeat split).
  change (_node_ids ex2) with (_node_ids E2) in Hx.
  destruct HE2 as (HE2 & HM2 & HC2). rewrite <- HM2, <- HC2.
  cut (_node_ids (fold_left (fun e c => snd (_export_node c q e)) cs E2) = _node_ids E2 /\
       _node_count (fold_left (fun e c => snd (_export_node c q e)) cs E2) = _node_count E2 /\
       exists suf, _lines (fold_left (fun e c => snd (_export_node c q e)) cs E1) = _lines E1 ++ suf /\
                   _lines (fold_left (fun e c => snd (_export_node c q e)) cs E2) = _lines E2 ++ suf).
  { intros (A & B & suf & C & D). split; [exact A|]. split; [exact B|].
    exists (own ++ suf). rewrite C, D, HE1, HE2, !app_assoc. split; reflexivity. }
  clearbody E1 E2. clear HE1 HE2 HM2 HC2 Hcode. clearbody own q. revert E1 E2 Hx.
  induction IH as [|c cs Hc _ IHl]; intros E1 E2 Hx; simpl.
  { split; [reflexivity|]. split; [reflexivity|]. exists []. rewrite !app_nil_r. split; reflexivity. }
  set (E1' := snd (_export_node c q E1)) in *.
  destruct (Hc q E1 E2) as (_ & Hm & Hcnt & sufc & L1 & L2).
  { intros x Hxc. rewrite Hx by (simpl; apply in_or_app; left; exact Hxc).
    destruct (export_node_covers c q E1 x Hxc) as [v Hv]. fold E1' in Hv.
    destruct (fold_export_grows cs q E1') as [Hsub _].
    { apply Forall_forall. intros c' _ p' e'. apply export_node_grows. }
    cbn [fold_left]. transitivity (Some v); [eapply lookup_weaken; [exact Hv | exact Hsub] | symmetry; exact Hv]. }
  destruct (IHl E1' (snd (_export_node c q E2))) as (A & B & suf & C & D).
  { intros x Hxl. rewrite Hm. apply Hx. simpl. apply in_or_app. right. exact Hxl. }
  split; [rewrite A; exact Hm|]. split; [rewrite B; exact Hcnt|].
  exists (sufc ++ suf). rewrite C, D. unfold E1'. rewrite L1, L2, !app_assoc. split; reflexivity.
Qed.

Lemma add_legend_meta (ex : MermaidExporter) :
  tree (_add_legend ex) = tree ex /\ _node_count (_add_legend ex) = _node_count ex /\
  _node_ids (_add_legend ex) = _node_ids ex.
Proof. repeat split. Qed.

Lemma add_legend_lines (e e' : MermaidExporter) :
  _lines e = _lines e' -> _lines (_add_legend e) = _lines (_add_legend e').
Proof. intros H. unfold _add_legend, append_line, set_lines. simpl. rewrite H. reflexivity. Qed.

Lemma export_state_memo (t : AttackTree) :
  memo_inj (export_state (MermaidExporter_init t)) /\
  _node_count (export_state (MermaidExporter_init t)) =
    size (_node_ids (export_state (MermaidExporter_init t))) /\
  dom (_node_ids (export_state (MermaidExporter_init t))) = list_to_set (map id (preorder (root t))).
Proof.
  unfold export_state. destruct (add_legend_meta
    (snd (_export_node (root (tree (set_lines (MermaidExporter_init t) [LText "flowchart TD"]))) None
           (set_lines (MermaidExporter_init t) [LText "flowchart TD"])))) as (_ & -> & ->).
  cbn [set_lines MermaidExporter_init tree _node_count _node_ids].
  split.
  - apply export_node_inj. split; intros k; [intros ? ? H | intros ? H]; simpl in H; rewrite lookup_empty in H; discriminate.
  - destruct (export_node_dom (root t) None (mkExporter t [LText "flowchart TD"] 0 ∅)) as [Hs Hd].
    { simpl. rewrite map_size_empty. reflexivity. }
    split; [exact Hs|]. etransitivity; [exact Hd|]. simpl. rewrite dom_empty_L. set_solver.
Qed.

(** X9: after [export()] on a fresh exporter, [_node_count] is the number
    of distinct ids in the tree: a node whose id was seen before reuses
    its identifier and allocates none. *)
Theorem export_count_distinct_ids (t : AttackTree) :
  _node_count (snd (export (MermaidExporter_init t))) =
    size (list_to_set (map id (preorder (root t))) : gset string).
Proof.
  unfold export. cbn [snd].
  destruct (export_state_memo t) as (_ & Hs & Hd).
  rewrite Hs, <- Hd, size_dom. reflexivity.
Qed.

(** X10: after [export()] on a fresh exporter, the memo gives every
    node of the tree an identifier [N{j}] with [j] below [_node_count],
    and two nodes get the same identifier exactly when their ids are
    equal. *)
Theorem export_identifiers_injective (t : AttackTree) (x y : AttackNode) :
  In x (preorder (root t)) -> In y (preorder (root t)) ->
  (_node_ids (snd (export (MermaidExporter_init t))) !! id x =
     _node_ids (snd (export (MermaidExporter_init t))) !! id y <-> id x = id y) /\
  exists j, j < _node_count (snd (export (MermaidExporter_init t))) /\
    _node_ids (snd (export (MermaidExporter_init t))) !! id x = Some ("N" ++ pretty j)%string.
Proof.
  intros Hx Hy. unfold export. cbn [snd].
  destruct (export_state_memo t) as ([Hi Hj] & _ & Hd).
  set (m := _node_ids (export_state (MermaidExporter_init t))) in *.
  assert (Hin : forall z, In z (preorder (root t)) -> is_Some (m !! id z)).
  { intros z Hz. apply elem_of_dom. rewrite Hd. apply elem_of_list_to_set.
    apply list_elem_of_In. apply in_map. exact Hz. }
  destruct (Hin x Hx) as [vx Hvx]. destruct (Hin y Hy) as [vy Hvy].
  split.
  - rewrite Hvx, Hvy. split; [intros E; injection E as <-; exact (Hi _ _ _ Hvx Hvy)|].
    intros E. rewrite E in Hvx. congruence.
  - destruct (Hj _ _ Hvx) as (j & Hjl & ->). exists j. split; [exact Hjl | exact Hvx].
Qed.

(** X11: calling [export()] a second time on the same exporter returns
    the same text and allocates no new identifiers: the memo and the
    counter it left behind are unchanged. *)
Theorem export_repeatable (ex : MermaidExporter) :
  fst (export (snd (export ex))) = fst (export ex) /\
  _node_count (snd (export (snd (export ex)))) = _node_count (snd (export ex)) /\
  _node_ids (snd (export (snd (export ex)))) = _node_ids (snd (export ex)).
Proof.
  unfold export. cbn [fst snd].
  set (S1 := export_state ex).
  set (hdr := [LText "flowchart TD"]).
  set (r1 := _export_node (root (tree (set_lines ex hdr))) None (set_lines ex hdr)).
  assert (HS1 : S1 = _add_legend (snd r1)) by reflexivity.
  assert (HT : tree S1 = tree ex).
  { rewrite HS1. destruct (add_legend_meta (snd r1)) as (-> & _). unfold r1. rewrite export_node_tree. reflexivity. }
  destruct (export_node_rerun (root (tree ex)) None (set_lines ex hdr) (set_lines S1 hdr))
    as (_ & Hm & Hc & suf & L1 & L2).
  { intros x _. cbn [set_lines _node_ids]. rewrite HS1.
    destruct (add_legend_meta (snd r1)) as (_ & _ & ->). reflexivity. }
  assert (Hlines : _lines (export_state S1) = _lines S1).
  { unfold export_state. cbn [set_lines tree]. rewrite HT. fold hdr. transitivity (_lines (_add_legend (snd r1))); [|rewrite HS1; reflexivity].
    apply add_legend_lines. rewrite L2. unfold r1. change (tree (set_lines ex hdr)) with (tree ex). rewrite L1. reflexivity. }
  rewrite Hlines. split; [reflexivity|].
  assert (HT' : tree (set_lines S1 hdr) = tree ex) by exact HT.
  assert (E : export_state S1 = _add_legend (snd (_export_node (root (tree ex)) None (set_lines S1 hdr)))).
  { unfold export_state. cbv zeta. fold hdr. rewrite HT'. reflexivity. }
  rewrite E. destruct (add_legend_meta (snd (_export_node (root (tree ex)) None (set_lines S1 hdr))))
    as (_ & -> & ->).
  split; [exact Hc | exact Hm].
Qed.

(** ** Instances of the properties above *)

Lemma find_path_unknown_metric_witness :
  "x" <> "difficulty" /\ "x" <> "cost" /\ "x" <> "detection" /\
  (forall p, _path_score p "x" = 0%Z) /\
  _find_path sample_or "x" = sample_or :: _find_path (sample_leaf "A" D_TRIVIAL C_LOW []) "x".
Proof.
  assert (H1 : "x" <> "difficulty") by discriminate.
  assert (H2 : "x" <> "cost") by discriminate.
  assert (H3 : "x" <> "detection") by discriminate.
  split; [exact H1|]. split; [exact H2|]. split; [exact H3|].
  destruct (find_path_unknown_metric sample_or "x" H1 H2 H3) as [H0 Hor].
  split; [exact H0|]. apply (Hor _ [sample_leaf "B" D_HIGH C_MEDIUM []]); reflexivity.
Defined.

Lemma find_path_no_or_witness :
  Forall (fun x => node_type x = AND \/ children x = []) (preorder sample_and) /\
  _find_path sample_and "cost" = preorder sample_and.
Proof.
  assert (H : Forall (fun x => node_type x = AND \/ children x = []) (preorder sample_and)).
  { change (preorder sample_and) with
      [sample_and; sample_leaf "A" D_TRIVIAL C_LOW []; sample_leaf "B" D_HIGH C_MEDIUM []].
    constructor; [left; reflexivity|]. constructor; [right; reflexivity|].
    constructor; [right; reflexivity|]. constructor. }
  split; [exact H | apply (find_path_no_or sample_and "cost" H)].
Defined.

Lemma add_child_and_path_witness :
  node_type sample_and = AND /\
  _find_path (add_child sample_and (sample_leaf "C" D_MEDIUM C_LOW [])) "cost" =
    add_child sample_and (sample_leaf "C" D_MEDIUM C_LOW []) ::
      tl (_find_path sample_and "cost") ++ _find_path (sample_leaf "C" D_MEDIUM C_LOW []) "cost".
Proof.
  split; [reflexivity | apply add_child_and_path; reflexivity].
Defined.

Lemma add_child_leaves_witness :
  node_type sample_or <> LEAF /\
  _collect_leaves (add_child sample_or (sample_leaf "C" D_MEDIUM C_LOW [])) [] =
    _collect_leaves sample_or [] ++ _collect_leaves (sample_leaf "C" D_MEDIUM C_LOW []) [] /\
  preorder (add_child sample_or (sample_leaf "C" D_MEDIUM C_LOW [])) =
    add_child sample_or (sample_leaf "C" D_MEDIUM C_LOW []) ::
      tl (preorder sample_or) ++ preorder (sample_leaf "C" D_MEDIUM C_LOW []).
Proof.
  assert (H : node_type sample_or <> LEAF) by discriminate.
  split; [exact H | apply add_child_leaves; exact H].
Defined.

Lemma add_child_or_path_witness :
  node_type sample_or = OR /\ children sample_or <> [] /\
  _find_path (add_child sample_or (sample_leaf "C" D_MEDIUM C_LOW [])) "cost" =
    if (_path_score (_find_path (sample_leaf "C" D_MEDIUM C_LOW []) "cost") "cost"
          <? _path_score (_find_path sample_or "cost") "cost")%Z
    then add_child sample_or (sample_leaf "C" D_MEDIUM C_LOW []) ::
           _find_path (sample_leaf "C" D_MEDIUM C_LOW []) "cost"
    else add_child sample_or (sample_leaf "C" D_MEDIUM C_LOW []) :: tl (_find_path sample_or "cost").
Proof.
  split; [reflexivity|]. split; [discriminate|].
  apply add_child_or_path; [reflexivity | discriminate].
Defined.

Lemma export_identifiers_injective_witness :
  In (root sample_or_and_tree) (preorder (root sample_or_and_tree)) /\
  In (sample_leaf "A" D_TRIVIAL C_LOW []) (preorder (root sample_or_and_tree)) /\
  (_node_ids (snd (export (MermaidExporter_init sample_or_and_tree))) !! id (root sample_or_and_tree) =
     _node_ids (snd (export (MermaidExporter_init sample_or_and_tree))) !! id (sample_leaf "A" D_TRIVIAL C_LOW [])
   <-> id (root sample_or_and_tree) = id (sample_leaf "A" D_TRIVIAL C_LOW [])) /\
  exists j, j < _node_count (snd (export (MermaidExporter_init sample_or_and_tree))) /\
    _node_ids (snd (export (MermaidExporter_init sample_or_and_tree))) !! id (root sample_or_and_tree)
      = Some ("N" ++ pretty j)%string.
Proof.
  assert (Hx : In (root sample_or_and_tree) (preorder (root sample_or_and_tree))) by (left; reflexivity).
  assert (Hy : In (sample_leaf "A" D_TRIVIAL C_LOW []) (preorder (root sample_or_and_tree)))
    by (right; right; left; reflexivity).
  split; [exact Hx|]. split; [exact Hy|].
  apply export_identifiers_injective; assumption.
Defined.

(** ** The lines of an export, by id *)

Lemma fold_export_lines (cs : list AttackNode) (q : option string) (E : MermaidExporter)
    (M : gmap string string) :
  Forall (fun c => forall p ex, _node_ids (snd (_export_node c p ex)) ⊆ M ->
    _lines (snd (_export_node c p ex)) = _lines ex ++ emit_by_id (fun k => default "" (M !! k)) c p) cs ->
  _node_ids (fold_left (fun e c => snd (_export_node c q e)) cs E) ⊆ M ->
  _lines (fold_left (fun e c => snd (_export_node c q e)) cs E) =
    _lines E ++ flat_map (fun c => emit_by_id (fun k => default "" (M !! k)) c q) cs.
Proof.
  intros IH. revert E. induction IH as [|c cs Hc _ IHl]; intros E HM; simpl.
  { rewrite app_nil_r. reflexivity. }
  assert (Hsub : _node_ids (snd (_export_node c q E)) ⊆ M).
  { destruct (fold_export_grows cs q (snd (_export_node c q E))) as [Hs _].
    { apply Forall_forall. intros c' _ p' e'. apply export_node_grows. }
    transitivity (_node_ids (fold_left (fun e c => snd (_export_node c q e)) cs (snd (_export_node c q E))));
      [exact Hs | exact HM]. }
  rewrite (IHl _ HM), (Hc q E Hsub), app_assoc. reflexivity.
Qed.

(** Whatever the state an export starts from, every node of the subtree
    is drawn under the identifier that the final memo (or any larger
    map) holds for its id. *)
Lemma export_node_lines (n : AttackNode) (p : option string) (ex : MermaidExporter)
    (M : gmap string string) :
  _node_ids (snd (_export_node n p ex)) ⊆ M ->
  _lines (snd (_export_node n p ex)) =
    _lines ex ++ emit_by_id (fun k => default "" (M !! k)) n p.
Proof.
  revert p ex. induction n as [i nm d t a cs mit cve fr IH] using AttackNode_rect'.
  intros p ex HM.
  set (n := mkNode i nm d t a cs mit cve fr) in *.
  assert (Hid : default "" (M !! id n) = fst (assign_id n ex)).
  { pose proof (export_node_memo n p ex) as Hm. rewrite export_node_fst in Hm.
    rewrite (lookup_weaken _ _ _ _ Hm HM). reflexivity. }
  rewrite export_node_step in HM |- *. change (children n) with cs in HM |- *.
  rewrite (fold_export_lines _ _ _ M IH HM). cbn [_lines].
  subst n. cbn [emit_by_id]. rewrite Hid, app_assoc. reflexivity.
Qed.

(** The counter grows by the number of keys the memo gains, and these are
    the ids of the subtree not in the memo before. *)
Lemma export_node_count_dom (n : AttackNode) (p : option string) (ex : MermaidExporter) :
  _node_count (snd (_export_node n p ex)) + size (_node_ids ex) =
    _node_count ex + size (_node_ids (snd (_export_node n p ex))) /\
  dom (_node_ids (snd (_export_node n p ex))) =
    dom (_node_ids ex) ∪ list_to_set (map id (preorder n)).
Proof.
  revert p ex. induction n as [i nm d t a cs mit cve fr IH] using AttackNode_rect'.
  intros p ex. rewrite export_node_step. cbn [children].
  set (n := mkNode i nm d t a cs mit cve fr).
  set (ex1 := mkExporter (tree ex) (_lines ex ++ own_emit n p (fst (assign_id n ex)))
      (_node_count (snd (assign_id n ex))) (_node_ids (snd (assign_id n ex)))).
  assert (H1 : _node_count ex1 + size (_node_ids ex) = _node_count ex + size (_node_ids ex1) /\
               dom (_node_ids ex1) = dom (_node_ids ex) ∪ {[id n]}).
  { subst ex1. simpl. unfold assign_id. destruct (_node_ids ex !! id n) eqn:Hl; simpl.
    - split; [lia|]. apply elem_of_dom_2 in Hl. set_solver.
    - rewrite map_size_insert_None by exact Hl. rewrite dom_insert_L.
      split; [lia | set_solver]. }
  clearbody ex1. destruct H1 as [Hsz1 Hdom1].
  assert (Hf : forall l e, Forall (fun c => forall p ex,
                 _node_count (snd (_export_node c p ex)) + size (_node_ids ex) =
                   _node_count ex + size (_node_ids (snd (_export_node c p ex))) /\
                 dom (_node_ids (snd (_export_node c p ex))) =
                   dom (_node_ids ex) ∪ list_to_set (map id (preorder c))) l ->
               let e' := fold_left (fun e c => snd (_export_node c (Some (fst (assign_id n ex))) e)) l e in
               _node_count e' + size (_node_ids e) = _node_count e + size (_node_ids e') /\
               dom (_node_ids e') = dom (_node_ids e) ∪ list_to_set (map id (flat_map preorder l))).
  { intros l. induction l as [|c l IHl]; intros e Hl; simpl.
    - split; [lia | set_solver].
    - inversion Hl as [|? ? Hc Hrest]; subst.
      destruct (Hc (Some (fst (assign_id n ex))) e) as [He1 Hd1].
      destruct (IHl (snd (_export_node c (Some (fst (assign_id n ex))) e)) Hrest) as [He2 Hd2].
      split; [lia|]. rewrite Hd2, Hd1, map_app, list_to_set_app_L. set_solver. }
  destruct (Hf cs ex1 IH) as [Hs Hd].
  split; [lia|]. rewrite Hd, Hdom1. simpl. set_solver.
Qed.

(** C9: in an export of a subtree, started from any state of the
    exporter (a fresh one, or one left by earlier exports), every node of
    the subtree is drawn (its style, shape and edge lines, see
    [emit_by_id]) under the identifier the memo holds for its id at the
    end. That identifier depends on the id alone, so two distinct nodes
    sharing an id, wherever they occur, become the same diagram vertex.
    The counter grows by the number of the subtree's distinct ids not
    yet in the memo: a repeated id reuses the identifier made for its
    first occurrence and does not receive a fresh one. *)
Theorem shared_id_same_identifier (n : AttackNode) (p : option string) (ex : MermaidExporter) :
  fst (_export_node n p ex) = default "" (_node_ids (snd (_export_node n p ex)) !! id n) /\
  _lines (snd (_export_node n p ex)) =
    _lines ex ++ emit_by_id (fun k => default "" (_node_ids (snd (_export_node n p ex)) !! k)) n p /\
  (forall x, In x (preorder n) -> is_Some (_node_ids (snd (_export_node n p ex)) !! id x)) /\
  _node_count (snd (_export_node n p ex)) + size (dom (_node_ids ex)) =
    _node_count ex + size (dom (_node_ids ex) ∪ list_to_set (map id (preorder n)) : gset string).
Proof.
  split; [rewrite export_node_memo; reflexivity|].
  split; [apply export_node_lines; reflexivity|].
  split; [intros x Hx; apply export_node_covers; exact Hx|].
  destruct (export_node_count_dom n p ex) as [Hc Hd].
  rewrite <- Hd, !size_dom. exact Hc.
Qed.

(** ** Edge lines of a whole export *)

Lemma NoDup_app_In (l1 l2 : list string) (s : string) :
  NoDup (l1 ++ l2) -> In s l1 -> In s l2 -> False.
Proof.
  intros ND H1 H2. apply NoDup_app in ND as (_ & Hd & _).
  apply (Hd s); apply list_elem_of_In; assumption.
Qed.

Lemma NoDup_app_l' (l1 l2 : list string) : NoDup (l1 ++ l2) -> NoDup l1.
Proof. intros ND. apply NoDup_app in ND as (H & _ & _). exact H. Qed.

Lemma NoDup_app_r' (l1 l2 : list string) : NoDup (l1 ++ l2) -> NoDup l2.
Proof. intros ND. apply NoDup_app in ND as (_ & _ & H). exact H. Qed.

Lemma NoDup_id_eq (l : list AttackNode) (x y : AttackNode) :
  NoDup (map id l) -> In x l -> In y l -> id x = id y -> x = y.
Proof.
  induction l as [|h l IH]; intros ND Hx Hy E; [contradiction|].
  simpl in ND. apply NoDup_cons in ND as [Hh ND]. rewrite list_elem_of_In in Hh.
  destruct Hx as [<-|Hx], Hy as [<-|Hy]; [reflexivity | | |apply IH; assumption];
    exfalso; apply Hh; [rewrite E | rewrite <- E]; apply in_map; assumption.
Qed.

(** Two children whose subtrees share a node are the same child. *)
Lemma preorder_common (l : list AttackNode) (a b z : AttackNode) :
  NoDup (map id (flat_map preorder l)) -> In a l -> In b l ->
  In z (preorder a) -> In z (preorder b) -> a = b.
Proof.
  induction l as [|h l IH]; intros ND Ha Hb Hza Hzb; [contradiction|].
  simpl in ND. rewrite map_app in ND.
  destruct Ha as [<-|Ha], Hb as [<-|Hb]; [reflexivity | | | apply IH; try assumption;
    eapply NoDup_app_r'; exact ND];
    exfalso; apply (NoDup_app_In _ _ (id z) ND); apply in_map; try assumption;
    apply in_flat_map; eauto.
Qed.

Lemma NoDup_flat_map_elem (l : list AttackNode) (c : AttackNode) :
  NoDup (map id (flat_map preorder l)) -> In c l -> NoDup (map id (preorder c)).
Proof.
  induction l as [|h l IH]; intros ND Hc; [contradiction|].
  simpl in ND. rewrite map_app in ND. destruct Hc as [<-|Hc].
  - eapply NoDup_app_l'; exact ND.
  - apply IH; [eapply NoDup_app_r'; exact ND | exact Hc].
Qed.

Lemma preorder_self (n : AttackNode) : In n (preorder n).
Proof. destruct n. left. reflexivity. Qed.

Lemma child_in_preorder (n par x : AttackNode) :
  In par (preorder n) -> In x (children par) -> In x (flat_map preorder (children n)).
Proof.
  induction n as [i nm d t a cs mit cve fr IH] using AttackNode_rect'.
  intros Hpar Hx.
  change (In par (mkNode i nm d t a cs mit cve fr :: flat_map preorder cs)) in Hpar.
  change (In x (flat_map preorder cs)). destruct Hpar as [<-|Hpar].
  - apply in_flat_map. exists x. split; [exact Hx | apply preorder_self].
  - apply in_flat_map in Hpar as (c & Hc & Hpc). apply in_flat_map. exists c. split; [exact Hc|].
    rewrite List.Forall_forall in IH. pose proof (IH _ Hc Hpc Hx) as H.
    destruct c. right. exact H.
Qed.

Lemma filter_flat_map {A B : Type} (f : B -> bool) (g : A -> list B) (l : list A) :
  List.filter f (flat_map g l) = flat_map (fun x => List.filter f (g x)) l.
Proof. induction l as [|x l IH]; simpl; [reflexivity|]. rewrite List.filter_app, IH. reflexivity. Qed.

Lemma flat_map_nil {A B : Type} (g : A -> list B) (l : list A) :
  (forall x, In x l -> g x = []) -> flat_map g l = [].
Proof.
  induction l as [|x l IH]; intros H; simpl; [reflexivity|].
  rewrite (H x (or_introl eq_refl)), IH; [reflexivity|]. intros y Hy. apply H. right. exact Hy.
Qed.

Lemma own_emit_edges (ix : string) (n : AttackNode) (p : option string) (nid : string) :
  List.filter (is_edge_to ix) (own_emit n p nid) =
    if truthy p && String.eqb nid ix then [LEdge (default "" p) (connector_of n) nid] else [].
Proof.
  unfold own_emit. destruct (node_type n), (truthy p); simpl;
    destruct (String.eqb nid ix); reflexivity.
Qed.

Lemma emit_no_target (f : string -> string) (n : AttackNode) (p : option string) (ix : string) :
  (forall y, In y (preorder n) -> f (id y) <> ix) ->
  List.filter (is_edge_to ix) (emit_by_id f n p) = [].
Proof.
  revert p. induction n as [i nm d t a cs mit cve fr IH] using AttackNode_rect'.
  intros p H. cbn [emit_by_id]. rewrite List.filter_app, own_emit_edges.
  destruct (String.eqb_spec (f (id (mkNode i nm d t a cs mit cve fr))) ix) as [E|_].
  { exfalso. exact (H _ (or_introl eq_refl) E). }
  rewrite andb_false_r, filter_flat_map. simpl. apply flat_map_nil.
  intros c Hc. rewrite List.Forall_forall in IH. apply (IH c Hc). intros y Hy. apply H.
  right. apply in_flat_map. eauto.
Qed.

Lemma flat_map_unique (P : AttackNode -> list mline) (x : AttackNode) (l : list AttackNode)
    (r : list mline) :
  NoDup (map id (flat_map preorder l)) -> In x (flat_map preorder l) ->
  (forall c, In c l -> ~ In x (preorder c) -> P c = []) ->
  (forall c, In c l -> In x (preorder c) -> P c = r) ->
  flat_map P l = r.
Proof.
  induction l as [|c l IH]; intros ND Hx Hno Hyes; [contradiction|].
  simpl in ND, Hx |- *. rewrite map_app in ND.
  assert (Hout : forall c', In c' l -> In x (preorder c) -> ~ In x (preorder c')).
  { intros c' Hc' H1 H2. apply (NoDup_app_In _ _ (id x) ND); apply in_map; [exact H1|].
    apply in_flat_map. eauto. }
  apply in_app_or in Hx as [Hx | Hx].
  - rewrite (Hyes c (or_introl eq_refl) Hx), flat_map_nil, app_nil_r; [reflexivity|].
    intros c' Hc'. apply Hno; [right; exact Hc' | exact (Hout c' Hc' Hx)].
  - rewrite Hno; [| left; reflexivity |].
    + apply IH; [eapply NoDup_app_r'; exact ND | exact Hx | |];
        intros c' Hc'; [apply Hno | apply Hyes]; right; exact Hc'.
    + intros H1. apply (NoDup_app_In _ _ (id x) ND); apply in_map; [exact H1 | exact Hx].
Qed.

(** With unique ids and an identifier map that is injective and nonempty
    on them, the export of [n] has, for every node with a parent, exactly
    one edge line ending at the node's identifier: the one from the
    parent's identifier, with the node's own connector; the node [n]
    itself gets the edge from [parent_id] or none. *)
Lemma emit_edges_to (f : string -> string) (n : AttackNode) :
  NoDup (map id (preorder n)) ->
  (forall a b, In a (preorder n) -> In b (preorder n) -> f (id a) = f (id b) -> id a = id b) ->
  (forall a, In a (preorder n) -> f (id a) <> "") ->
  forall p,
  List.filter (is_edge_to (f (id n))) (emit_by_id f n p) =
    (if truthy p then [LEdge (default "" p) (connector_of n) (f (id n))] else []) /\
  (forall par x, In par (preorder n) -> In x (children par) ->
     List.filter (is_edge_to (f (id x))) (emit_by_id f n p) =
       [LEdge (f (id par)) (connector_of x) (f (id x))]).
Proof.
  induction n as [i nm d t a cs mit cve fr IH] using AttackNode_rect'.
  intros ND Hinj Hne p.
  set (n := mkNode i nm d t a cs mit cve fr) in *.
  assert (Hpre : preorder n = n :: flat_map preorder cs) by reflexivity.
  assert (Hch : children n = cs) by reflexivity.
  assert (Hsub : forall c y, In c cs -> In y (preorder c) -> In y (preorder n)).
  { intros c y Hc Hy. rewrite Hpre. right. apply in_flat_map. eauto. }
  rewrite Hpre in ND. cbn [map] in ND. apply NoDup_cons in ND as [Hnotin NDc]. rewrite list_elem_of_In in Hnotin.
  rewrite List.Forall_forall in IH.
  assert (IHc : forall c, In c cs -> forall q,
     List.filter (is_edge_to (f (id c))) (emit_by_id f c q) =
       (if truthy q then [LEdge (default "" q) (connector_of c) (f (id c))] else []) /\
     (forall par x, In par (preorder c) -> In x (children par) ->
        List.filter (is_edge_to (f (id x))) (emit_by_id f c q) =
          [LEdge (f (id par)) (connector_of x) (f (id x))])).
  { intros c Hc. apply IH; [exact Hc | exact (NoDup_flat_map_elem _ _ NDc Hc) | |].
    - intros a' b' Ha Hb. apply Hinj; eapply Hsub; eassumption.
    - intros a' Ha. apply Hne. eapply Hsub; eassumption. }
  assert (Hemit : emit_by_id f n p =
    own_emit n p (f (id n)) ++ flat_map (fun c => emit_by_id f c (Some (f (id n)))) cs)
    by reflexivity.
  (* a node below [n] never has [n]'s identifier *)
  assert (Hbelow : forall y, In y (flat_map preorder cs) -> f (id y) <> f (id n)).
  { intros y Hy E. apply Hinj in E; [| rewrite Hpre; right; exact Hy | rewrite Hpre; left; reflexivity].
    apply Hnotin. rewrite <- E. apply in_map. exact Hy. }
  split.
  - rewrite Hemit, List.filter_app, own_emit_edges, String.eqb_refl, andb_true_r, filter_flat_map.
    rewrite (flat_map_nil _ cs), app_nil_r; [reflexivity|].
    intros c Hc. apply emit_no_target. intros y Hy. apply Hbelow. apply in_flat_map. eauto.
  - intros par x Hpar Hx.
    assert (Hxd : In x (flat_map preorder cs)) by (rewrite <- Hch; exact (child_in_preorder n par x Hpar Hx)).
    rewrite Hemit, List.filter_app, own_emit_edges.
    destruct (String.eqb_spec (f (id n)) (f (id x))) as [E|_];
      [exfalso; exact (Hbelow x Hxd (eq_sym E))|].
    rewrite andb_false_r, app_nil_l, filter_flat_map.
    apply (flat_map_unique _ x cs _ NDc Hxd).
    + intros c Hc Hnx. apply emit_no_target. intros y Hy E.
      apply Hinj in E; [| eapply Hsub; eassumption | rewrite Hpre; right; exact Hxd].
      apply NoDup_id_eq with (l := flat_map preorder cs) in E;
        [subst y; exact (Hnx Hy) | exact NDc | apply in_flat_map; eauto | exact Hxd].
    + intros c Hc Hxc. rewrite Hpre in Hpar. destruct Hpar as [Epar | Hpar].
      * rewrite <- Epar, Hch in Hx.
        assert (Ec : c = x) by (apply (preorder_common cs c x x NDc Hc Hx Hxc); apply preorder_self).
        subst c. rewrite <- Epar. rewrite (proj1 (IHc x Hc (Some (f (id n))))).
        rewrite truthy_some; [reflexivity|]. apply Hne. rewrite Hpre. left. reflexivity.
      * apply in_flat_map in Hpar as (c0 & Hc0 & Hpc0).
        assert (Hxc0 : In x (preorder c0)).
        { destruct c0 as [ci cn cd ct ca ccs cm ccv cf]. right.
          exact (child_in_preorder _ par x Hpc0 Hx). }
        assert (Ec : c = c0) by exact (preorder_common cs c c0 x NDc Hc Hc0 Hxc Hxc0).
        subst c0. exact (proj2 (IHc c Hc (Some (f (id n)))) par x Hpc0 Hx).
Qed.

Lemma add_legend_edges (ix : string) (ex : MermaidExporter) :
  List.filter (is_edge_to ix) (_lines (_add_legend ex)) = List.filter (is_edge_to ix) (_lines ex).
Proof.
  unfold _add_legend, append_line, set_lines. cbn [_lines].
  rewrite !List.filter_app. simpl. rewrite !app_nil_r. reflexivity.
Qed.

Lemma connector_of_spec (x : AttackNode) :
  (connector_of x = "==>" <-> node_type x = AND) /\ (connector_of x = "-->" <-> node_type x <> AND).
Proof.
  unfold connector_of. destruct (node_type x); simpl; split; split; intros H;
    try discriminate; try congruence; reflexivity.
Qed.

(** C4 (amended): in the Mermaid export of a tree whose node ids are
    unique, every node with a parent is the target of exactly one edge
    line of the whole export, and that line runs from the parent's
    diagram identifier to the node's; its connector is [==>] exactly
    when the node itself (the child) is AND and [-->] when it is OR or
    LEAF, whatever the parent's kind. The root is the target of no edge
    line. *)
Theorem export_edge_unique_child_kind (t : AttackTree) :
  NoDup (map id (preorder (root t))) ->
  (forall par x, In par (preorder (root t)) -> In x (children par) ->
     exists ip ix conn,
       _node_ids (export_state (MermaidExporter_init t)) !! id par = Some ip /\
       _node_ids (export_state (MermaidExporter_init t)) !! id x = Some ix /\
       List.filter (is_edge_to ix) (_lines (export_state (MermaidExporter_init t)))
         = [LEdge ip conn ix] /\
       (conn = "==>" <-> node_type x = AND) /\ (conn = "-->" <-> node_type x <> AND)) /\
  (exists ir, _node_ids (export_state (MermaidExporter_init t)) !! id (root t) = Some ir /\
     List.filter (is_edge_to ir) (_lines (export_state (MermaidExporter_init t))) = []).
Proof.
  intros ND.
  destruct (export_state_memo t) as ([Hi Hj] & _ & _).
  set (E0 := mkExporter t [LText "flowchart TD"] 0 ∅).
  set (R := snd (_export_node (root t) None E0)).
  assert (HE : export_state (MermaidExporter_init t) = _add_legend R) by reflexivity.
  rewrite HE in Hi, Hj |- *.
  change (_node_ids (_add_legend R)) with (_node_ids R) in Hi, Hj |- *.
  set (f := fun k => default "" (_node_ids R !! k)).
  assert (Hcov : forall y, In y (preorder (root t)) -> _node_ids R !! id y = Some (f (id y))).
  { intros y Hy. destruct (export_node_covers (root t) None E0 y Hy) as [v Hv].
    fold R in Hv. unfold f. rewrite Hv. reflexivity. }
  assert (HL : forall ix, List.filter (is_edge_to ix) (_lines (_add_legend R)) =
                         List.filter (is_edge_to ix) (emit_by_id f (root t) None)).
  { intros ix. rewrite add_legend_edges. unfold R.
    rewrite (export_node_lines (root t) None E0 (_node_ids R)) by reflexivity.
    reflexivity. }
  assert (Hinj : forall a b, In a (preorder (root t)) -> In b (preorder (root t)) ->
                   f (id a) = f (id b) -> id a = id b).
  { intros a b Ha Hb E. apply (Hi _ _ (f (id a))); [apply Hcov; exact Ha|].
    rewrite E. apply Hcov. exact Hb. }
  assert (Hne : forall a, In a (preorder (root t)) -> f (id a) <> "").
  { intros a Ha. destruct (Hj _ _ (Hcov a Ha)) as (j & _ & ->). discriminate. }
  destruct (emit_edges_to f (root t) ND Hinj Hne None) as [Hroot Hedge].
  split.
  - intros par x Hpar Hx.
    assert (Hxin : In x (preorder (root t))).
    { destruct (root t) as [ri rn rd rt ra rcs rm rcv rf]. right.
      exact (child_in_preorder _ par x Hpar Hx). }
    exists (f (id par)), (f (id x)), (connector_of x).
    split; [exact (Hcov par Hpar)|]. split; [exact (Hcov x Hxin)|].
    split; [rewrite HL; exact (Hedge par x Hpar Hx)|]. apply connector_of_spec.
  - exists (f (id (root t))). split; [apply Hcov, preorder_self|].
    rewrite HL, Hroot. reflexivity.
Qed.

Lemma export_edge_unique_child_kind_witness :
  NoDup (map id (preorder (root sample_or_and_tree))) /\
  (forall par x, In par (preorder (root sample_or_and_tree)) -> In x (children par) ->
     exists ip ix conn,
       _node_ids (export_state (MermaidExporter_init sample_or_and_tree)) !! id par = Some ip /\
       _node_ids (export_state (MermaidExporter_init sample_or_and_tree)) !! id x = Some ix /\
       List.filter (is_edge_to ix) (_lines (export_state (MermaidExporter_init sample_or_and_tree)))
         = [LEdge ip conn ix] /\
       (conn = "==>" <-> node_type x = AND) /\ (conn = "-->" <-> node_type x <> AND)) /\
  (exists ir, _node_ids (export_state (MermaidExporter_init sample_or_and_tree)) !! id (root sample_or_and_tree) = Some ir /\
     List.filter (is_edge_to ir) (_lines (export_state (MermaidExporter_init sample_or_and_tree))) = []).
Proof.
  assert (H : NoDup (map id (preorder (root sample_or_and_tree)))).
  { simpl. repeat constructor; set_solver. }
  split; [exact H|]. apply export_edge_unique_child_kind. exact H.
Defined.
